(** * FlappyBird.jsx: a shallow embedding of the game component

    The component keeps its simulation state in React refs, three pieces
    of React state ([score], [best], [showHelp]), one [localStorage]
    entry and the browser's animation-frame queue.  Every function of
    the component is transcribed below as a pure function on a [world]
    record that holds all of these.

    JavaScript numbers are modelled by canonical rationals ([Qc]):
    arithmetic is exact, which agrees with IEEE doubles whenever all
    intermediate values are dyadic numbers of moderate size.  The
    sessions played below use frame steps of 1/64 s for that reason. *)

From Stdlib Require Import ZArith QArith Qcanon Bool List String Ascii Lia Lqa.
From Stdlib Require Import DecimalString Sorted.
From Stdlib Require DecimalPos.
Import ListNotations.

Open Scope Qc_scope.

(** ** Numbers *)

Definition Z2Qc (z : Z) : Qc := Q2Qc (inject_Z z).

Definition Qcltb (a b : Qc) : bool :=
  match a ?= b with Lt => true | _ => false end.

Definition Qcleb (a b : Qc) : bool :=
  match a ?= b with Gt => false | _ => true end.

Definition Qceqb (a b : Qc) : bool :=
  match a ?= b with Eq => true | _ => false end.

(** [Math.min] and [Math.max] on finite numbers. *)
Definition Math_min (a b : Qc) : Qc := if Qcltb b a then b else a.
Definition Math_max (a b : Qc) : Qc := if Qcltb a b then b else a.

(** ** Configuration ([cfg.current]) *)

Record config := {
  w : Qc;
  h : Qc;
  groundH : Qc;
  gravity : Qc;
  jump : Qc;
  pipeGap : Qc;
  pipeW : Qc;
  pipeSpeed : Qc;
  spawnEvery : Qc;
  birdX : Qc;
  birdR : Qc
}.

Definition cfg : config := {|
  w := Z2Qc 360;
  h := Z2Qc 640;
  groundH := Z2Qc 80;
  gravity := Z2Qc 1800;
  jump := Z2Qc (-420);
  pipeGap := Z2Qc 160;
  pipeW := Z2Qc 70;
  pipeSpeed := Z2Qc 150;
  spawnEvery := Z2Qc 1400;
  birdX := Z2Qc 90;
  birdR := Z2Qc 14
|}.

(** ** State *)

(** An element of [pipesRef.current]: [{ x, topH }]. *)
Record pipe := { pipe_x : Qc; pipe_topH : Qc }.

(** The refs created by [useRef].  [rafRef] holds the last id returned
    by [requestAnimationFrame]; [0] stands for the initial [null]. *)
Record refs := {
  rafRef : nat;
  lastSpawnRef : Qc;
  lastTimeRef : Qc;
  gameStartedRef : bool;
  pausedRef : bool;
  gameOverRef : bool;
  birdYRef : Qc;
  birdVYRef : Qc;
  pipesRef : list pipe;
  scoreRef : Z;
  passedPipeIndexRef : Z
}.

(** The values held by [useState]. *)
Record hooks := {
  score : Z;
  best : Qc;
  showHelp : bool
}.

(** What lives outside the component.  [localStorage] is the entry
    stored under the key ["flappy_best"] ([None] when absent).
    [rafQueue] lists the callbacks registered for the next animation
    frame.  Every such callback is the function [loop] of some render of
    the component; the only thing in which the [loop]s of different
    renders differ is the constant [best] they close over, so a callback
    is represented by that value.  [effectBest] is the [best] seen by
    the closures created in the mount effect ([useEffect] with an empty
    dependency list runs once, with the functions of the first
    render). *)
Record env := {
  localStorage : option string;
  rafQueue : list Qc;
  nextRafId : nat;
  effectBest : Qc
}.

Record world := {
  R : refs;
  U : hooks;
  E : env
}.


Definition set_rafRef v (r : refs) : refs :=
  {| rafRef := v; lastSpawnRef := lastSpawnRef r; lastTimeRef := lastTimeRef r;
     gameStartedRef := gameStartedRef r; pausedRef := pausedRef r;
     gameOverRef := gameOverRef r; birdYRef := birdYRef r;
     birdVYRef := birdVYRef r; pipesRef := pipesRef r; scoreRef := scoreRef r;
     passedPipeIndexRef := passedPipeIndexRef r |}.

Definition set_lastSpawnRef v (r : refs) : refs :=
  {| rafRef := rafRef r; lastSpawnRef := v; lastTimeRef := lastTimeRef r;
     gameStartedRef := gameStartedRef r; pausedRef := pausedRef r;
     gameOverRef := gameOverRef r; birdYRef := birdYRef r;
     birdVYRef := birdVYRef r; pipesRef := pipesRef r; scoreRef := scoreRef r;
     passedPipeIndexRef := passedPipeIndexRef r |}.

Definition set_lastTimeRef v (r : refs) : refs :=
  {| rafRef := rafRef r; lastSpawnRef := lastSpawnRef r; lastTimeRef := v;
     gameStartedRef := gameStartedRef r; pausedRef := pausedRef r;
     gameOverRef := gameOverRef r; birdYRef := birdYRef r;
     birdVYRef := birdVYRef r; pipesRef := pipesRef r; scoreRef := scoreRef r;
     passedPipeIndexRef := passedPipeIndexRef r |}.

Definition set_gameStartedRef v (r : refs) : refs :=
  {| rafRef := rafRef r; lastSpawnRef := lastSpawnRef r;
     lastTimeRef := lastTimeRef r;
     gameStartedRef := v; pausedRef := pausedRef r;
     gameOverRef := gameOverRef r; birdYRef := birdYRef r;
     birdVYRef := birdVYRef r; pipesRef := pipesRef r; scoreRef := scoreRef r;
     passedPipeIndexRef := passedPipeIndexRef r |}.

Definition set_pausedRef v (r : refs) : refs :=
  {| rafRef := rafRef r; lastSpawnRef := lastSpawnRef r;
     lastTimeRef := lastTimeRef r;
     gameStartedRef := gameStartedRef r; pausedRef := v;
     gameOverRef := gameOverRef r; birdYRef := birdYRef r;
     birdVYRef := birdVYRef r; pipesRef := pipesRef r; scoreRef := scoreRef r;
     passedPipeIndexRef := passedPipeIndexRef r |}.

Definition set_gameOverRef v (r : refs) : refs :=
  {| rafRef := rafRef r; lastSpawnRef := lastSpawnRef r;
     lastTimeRef := lastTimeRef r;
     gameStartedRef := gameStartedRef r; pausedRef := pausedRef r;
     gameOverRef := v; birdYRef := birdYRef r;
     birdVYRef := birdVYRef r; pipesRef := pipesRef r; scoreRef := scoreRef r;
     passedPipeIndexRef := passedPipeIndexRef r |}.

Definition set_birdYRef v (r : refs) : refs :=
  {| rafRef := rafRef r; lastSpawnRef := lastSpawnRef r;
     lastTimeRef := lastTimeRef r;
     gameStartedRef := gameStartedRef r; pausedRef := pausedRef r;
     gameOverRef := gameOverRef r; birdYRef := v;
     birdVYRef := birdVYRef r; pipesRef := pipesRef r; scoreRef := scoreRef r;
     passedPipeIndexRef := passedPipeIndexRef r |}.

Definition set_birdVYRef v (r : refs) : refs :=
  {| rafRef := rafRef r; lastSpawnRef := lastSpawnRef r;
     lastTimeRef := lastTimeRef r;
     gameStartedRef := gameStartedRef r; pausedRef := pausedRef r;
     gameOverRef := gameOverRef r; birdYRef := birdYRef r;
     birdVYRef := v; pipesRef := pipesRef r; scoreRef := scoreRef r;
     passedPipeIndexRef := passedPipeIndexRef r |}.

Definition set_pipesRef v (r : refs) : refs :=
  {| rafRef := rafRef r; lastSpawnRef := lastSpawnRef r;
     lastTimeRef := lastTimeRef r;
     gameStartedRef := gameStartedRef r; pausedRef := pausedRef r;
     gameOverRef := gameOverRef r; birdYRef := birdYRef r;
     birdVYRef := birdVYRef r; pipesRef := v; scoreRef := scoreRef r;
     passedPipeIndexRef := passedPipeIndexRef r |}.

Definition set_scoreRef v (r : refs) : refs :=
  {| rafRef := rafRef r; lastSpawnRef := lastSpawnRef r;
     lastTimeRef := lastTimeRef r;
     gameStartedRef := gameStartedRef r; pausedRef := pausedRef r;
     gameOverRef := gameOverRef r; birdYRef := birdYRef r;
     birdVYRef := birdVYRef r; pipesRef := pipesRef r; scoreRef := v;
     passedPipeIndexRef := passedPipeIndexRef r |}.

Definition set_passedPipeIndexRef v (r : refs) : refs :=
  {| rafRef := rafRef r; lastSpawnRef := lastSpawnRef r;
     lastTimeRef := lastTimeRef r;
     gameStartedRef := gameStartedRef r; pausedRef := pausedRef r;
     gameOverRef := gameOverRef r; birdYRef := birdYRef r;
     birdVYRef := birdVYRef r; pipesRef := pipesRef r; scoreRef := scoreRef r;
     passedPipeIndexRef := v |}.

Definition set_score v (u : hooks) : hooks :=
  {| score := v; best := best u; showHelp := showHelp u |}.

Definition set_best v (u : hooks) : hooks :=
  {| score := score u; best := v; showHelp := showHelp u |}.

Definition set_showHelp v (u : hooks) : hooks :=
  {| score := score u; best := best u; showHelp := v |}.

Definition set_localStorage v (e : env) : env :=
  {| localStorage := v; rafQueue := rafQueue e; nextRafId := nextRafId e;
     effectBest := effectBest e |}.


(** Lifting an update of one component to the whole [world]. *)
Definition onR (f : refs -> refs) (s : world) : world :=
  {| R := f (R s); U := U s; E := E s |}.

Definition onU (f : hooks -> hooks) (s : world) : world :=
  {| R := R s; U := f (U s); E := E s |}.

Definition onE (f : env -> env) (s : world) : world :=
  {| R := R s; U := U s; E := f (E s) |}.

(** ** [Number(string)] and [Number.isFinite]

    The value of a JavaScript number is either a finite number, one of
    the two infinities, or NaN. *)

Inductive jsnum :=
| NaN
| Infinity (negative : bool)
| Finite (q : Qc).

Definition Number_isFinite (v : jsnum) : bool :=
  match v with Finite _ => true | _ => false end.

(** White space that [StringToNumber] strips (the ASCII part of
    [StrWhiteSpaceChar]: TAB, LF, VT, FF, CR, SP). *)
Definition is_space (c : ascii) : bool :=
  let n := nat_of_ascii c in
  (Nat.leb 9 n && Nat.leb n 13) || Nat.eqb n 32.

Fixpoint drop_space (l : list ascii) : list ascii :=
  match l with
  | c :: r => if is_space c then drop_space r else l
  | [] => []
  end.

Definition trim (l : list ascii) : list ascii :=
  rev (drop_space (rev (drop_space l))).

Definition digit_of (c : ascii) : option Z :=
  let n := Z.of_nat (nat_of_ascii c) in
  if (48 <=? n)%Z && (n <=? 57)%Z then Some (n - 48)%Z
  else if (97 <=? n)%Z && (n <=? 102)%Z then Some (n - 87)%Z
  else if (65 <=? n)%Z && (n <=? 70)%Z then Some (n - 55)%Z
  else None.

Definition digit_in (base : Z) (c : ascii) : option Z :=
  match digit_of c with
  | Some d => if (d <? base)%Z then Some d else None
  | None => None
  end.

(** Reads the longest prefix of digits in [base]: the value read (on
    top of [acc]), the number of digits and the rest of the input. *)
Fixpoint digits (base : Z) (l : list ascii) (acc : Z) (n : nat)
  : Z * nat * list ascii :=
  match l with
  | c :: r =>
      match digit_in base c with
      | Some d => digits base r (acc * base + d)%Z (S n)
      | None => (acc, n, l)
      end
  | [] => (acc, n, [])
  end.

Definition pow10 (e : Z) : Qc :=
  if (0 <=? e)%Z then Z2Qc (10 ^ e) else 1 / Z2Qc (10 ^ (- e)).

(** Values at or beyond the midpoint between the largest double and
    2^1024 round to an infinity; below it the exact value is kept
    (rounding to the nearest double is not modelled). *)
Definition overflow_bound : Qc := Z2Qc (2 ^ 1024 - 2 ^ 970).

Definition to_double (negative : bool) (magnitude : Qc) : jsnum :=
  if Qcleb overflow_bound magnitude then Infinity negative
  else Finite (if negative then - magnitude else magnitude).

Definition ascii_list_eqb (a b : list ascii) : bool :=
  String.eqb (string_of_list_ascii a) (string_of_list_ascii b).

(** [StrUnsignedDecimalLiteral]: [Infinity], or digits with an optional
    fraction and an optional exponent. *)
Definition StrUnsignedDecimalLiteral (negative : bool) (l : list ascii)
  : jsnum :=
  if ascii_list_eqb l (list_ascii_of_string "Infinity")
  then Infinity negative
  else
    let '(i, ni, r1) := digits 10 l 0 0 in
    let '(m, nf, r2) :=
      match r1 with
      | "."%char :: r => digits 10 r i 0
      | _ => (i, 0%nat, r1)
      end in
    if Nat.eqb (ni + nf) 0 then NaN
    else
      match r2 with
      | [] => to_double negative (Z2Qc m * pow10 (- Z.of_nat nf))
      | c :: r =>
          if Ascii.eqb c "e" || Ascii.eqb c "E" then
            let '(esign, r') :=
              match r with
              | "+"%char :: t => (1%Z, t)
              | "-"%char :: t => ((-1)%Z, t)
              | _ => (1%Z, r)
              end in
            let '(e, ne, r3) := digits 10 r' 0 0 in
            match ne, r3 with
            | S _, [] =>
                to_double negative
                  (Z2Qc m * pow10 (esign * e - Z.of_nat nf))
            | _, _ => NaN
            end
          else NaN
      end.

Definition NonDecimalIntegerLiteral (base : Z) (l : list ascii) : jsnum :=
  match digits base l 0 0 with
  | (v, S _, []) => to_double false (Z2Qc v)
  | _ => NaN
  end.

(** [Number(s)] for a string [s] (the abstract operation
    [StringToNumber]).  The value read is the exact value of the
    literal: rounding to the nearest double is not modelled and only
    ASCII white space is stripped, so this agrees with JavaScript on the
    ASCII strings whose value is itself a double, the decimal digits of
    every integer up to 2^53 among them. *)
Definition Number (s : string) : jsnum :=
  match trim (list_ascii_of_string s) with
  | [] => Finite 0
  | "0"%char :: c :: r =>
      if Ascii.eqb c "x" || Ascii.eqb c "X" then NonDecimalIntegerLiteral 16 r
      else if Ascii.eqb c "o" || Ascii.eqb c "O"
           then NonDecimalIntegerLiteral 8 r
      else if Ascii.eqb c "b" || Ascii.eqb c "B"
           then NonDecimalIntegerLiteral 2 r
      else StrUnsignedDecimalLiteral false ("0"%char :: c :: r)
  | "+"%char :: r => StrUnsignedDecimalLiteral false r
  | "-"%char :: r => StrUnsignedDecimalLiteral true r
  | l => StrUnsignedDecimalLiteral false l
  end.

(** [String(n)] for an integer [n]: its decimal digits.  This is what
    JavaScript prints for the integers that a double holds exactly and
    prints without an exponent, in particular for every integer up to
    2^53. *)
Definition String_ (n : Z) : string := NilZero.string_of_int (Z.to_int n).

(** The initialiser of the [best] state:
[[
  const v = Number(localStorage.getItem("flappy_best") || 0);
  return Number.isFinite(v) ? v : 0;
]]
    [getItem] returns [null] for an absent key; [null] and the empty
    string are falsy, so [||] replaces them by the number [0]. *)
Definition best_init (stored : option string) : jsnum :=
  let v :=
    match stored with
    | None => Finite 0
    | Some EmptyString => Finite 0
    | Some s => Number s
    end in
  if Number_isFinite v then v else Finite 0.

(** The call [localStorage.getItem("flappy_best")] either returns (a
    string, or [null] for an absent key) or throws, as it does where
    access to the storage is denied.  The initialiser has no [try]
    around the call, so an exception leaves it without a value: [None]
    below stands for the exception propagating out of the
    initialiser. *)
Inductive getItem_outcome :=
| Threw
| Returned (v : option string).

Definition best_initializer (r : getItem_outcome) : option jsnum :=
  match r with
  | Threw => None
  | Returned v => Some (best_init v)
  end.

(** The rational held by a finite number (infinities and NaN, which
    [best_init] never returns, are sent to 0). *)
Definition finite_value (v : jsnum) : Qc :=
  match v with
  | Finite q => q
  | _ => 0
  end.

(** ** The animation-frame queue *)

(** [rafRef.current = requestAnimationFrame(loop)], for the [loop] that
    closes over [b]: the callback joins the queue and the fresh,
    non-zero id is stored. *)
Definition requestAnimationFrame (b : Qc) (s : world) : world :=
  let e := E s in
  {| R := set_rafRef (nextRafId e) (R s);
     U := U s;
     E := {| localStorage := localStorage e;
             rafQueue := rafQueue e ++ [b];
             nextRafId := S (nextRafId e);
             effectBest := effectBest e |} |}.

(** ** Helpers of the component *)

Definition resetGame (s : world) : world :=
  let s := onR (set_birdYRef (h cfg / Z2Qc 2)) s in
  let s := onR (set_birdVYRef 0) s in
  let s := onR (set_pipesRef []) s in
  let s := onR (set_scoreRef 0%Z) s in
  let s := onU (set_score 0%Z) s in
  let s := onR (set_passedPipeIndexRef 0%Z) s in
  let s := onR (set_lastSpawnRef 0) s in
  let s := onR (set_lastTimeRef 0) s in
  let s := onR (set_gameOverRef false) s in
  onR (set_gameStartedRef false) s.

Definition flap (s : world) : world :=
  let s :=
    if negb (gameStartedRef (R s)) then
      let s := onR (set_gameStartedRef true) s in
      let s := onR (set_pausedRef false) s in
      onU (set_showHelp false) s
    else s in
  if gameOverRef (R s) then s (* ignore flaps on game over *)
  else onR (set_birdVYRef (jump cfg)) s.

(** [handlePointer] of the render whose [best] is [b]. *)
Definition handlePointer (b : Qc) (s : world) : world :=
  let s := flap s in
  if Nat.eqb (rafRef (R s)) 0 && negb (pausedRef (R s))
  then requestAnimationFrame b s
  else s.

(** [togglePause] of the render whose [best] is [b]. *)
Definition togglePause (b : Qc) (s : world) : world :=
  if negb (gameStartedRef (R s)) || gameOverRef (R s) then s
  else
    let s := onR (set_pausedRef (negb (pausedRef (R s)))) s in
    if negb (pausedRef (R s)) then
      let s := onR (set_lastTimeRef 0) s in
      requestAnimationFrame b s
    else s.

(** [rnd] is the value returned by [Math.random()]. *)
Definition spawnPipe (canvasH : Qc) (rnd : Qc) (s : world) : world :=
  let minTop := Z2Qc 60 in
  let maxTop := canvasH - groundH cfg - pipeGap cfg - Z2Qc 60 in
  let topH := minTop + rnd * (maxTop - minTop) in
  onR (set_pipesRef
         (pipesRef (R s) ++ [{| pipe_x := w cfg + Z2Qc 40; pipe_topH := topH |}]))
      s.

Definition circleRect (cx cy cr rx ry rw rh : Qc) : bool :=
  let nx := Math_max rx (Math_min cx (rx + rw)) in
  let ny := Math_max ry (Math_min cy (ry + rh)) in
  let dx := cx - nx in
  let dy := cy - ny in
  Qcleb (dx * dx + dy * dy) (cr * cr).

Definition collides (bx by_ r : Qc) (p : pipe) : bool :=
  circleRect bx by_ r (pipe_x p) 0 (pipeW cfg) (pipe_topH p)
  || circleRect bx by_ r
       (pipe_x p) (pipe_topH p + pipeGap cfg) (pipeW cfg)
       (h cfg - groundH cfg - (pipe_topH p + pipeGap cfg)).

(** The [while] loop of [draw] that removes off-screen pipes:
[[
  while (pipes.length && pipes[0].x + pipeW < 0) {
    pipes.shift();
    passed = Math.max(0, passed - 1);
  }
]]
    on the pair of [pipesRef.current] and [passedPipeIndexRef.current]. *)
Fixpoint prune (ps : list pipe) (passed : Z) : list pipe * Z :=
  match ps with
  | first :: rest =>
      if Qcltb (pipe_x first + pipeW cfg) 0
      then prune rest (Z.max 0 (passed - 1))
      else (ps, passed)
  | [] => ([], passed)
  end.

(** The simulation part of [draw] (everything before "Draw pipes") is
    a sequence of blocks, each introduced by a comment in the source.
    Every block is transcribed as a function of its own, named after
    that comment; [draw] below runs them in order. *)

(** "Bird physics" *)
Definition birdPhysics (dt : Qc) (s : world) : world :=
  let s := onR (set_birdVYRef (birdVYRef (R s) + gravity cfg * dt)) s in
  onR (set_birdYRef (birdYRef (R s) + birdVYRef (R s) * dt)) s.

(** "Pipes movement": [for (const p of pipes) p.x -= pipeSpeed * dt]. *)
Definition movePipe (dt : Qc) (p : pipe) : pipe :=
  {| pipe_x := pipe_x p - pipeSpeed cfg * dt; pipe_topH := pipe_topH p |}.

Definition pipesMovement (dt : Qc) (s : world) : world :=
  onR (set_pipesRef (map (movePipe dt) (pipesRef (R s)))) s.

(** "Spawn pipes" *)
Definition spawnPipes (dt rnd : Qc) (s : world) : world :=
  let s := onR (set_lastSpawnRef (lastSpawnRef (R s) + dt * Z2Qc 1000)) s in
  if Qcleb (spawnEvery cfg) (lastSpawnRef (R s)) then
    let s := onR (set_lastSpawnRef 0) s in
    spawnPipe (h cfg) rnd s
  else s.

(** "Remove off-screen pipes & update score" *)
Definition removeOffscreen (s : world) : world :=
  let '(ps, passed) := prune (pipesRef (R s)) (passedPipeIndexRef (R s)) in
  onR (set_passedPipeIndexRef passed) (onR (set_pipesRef ps) s).

(** "Scoring: count passing each first pipe once" *)
Definition scoring (s : world) : world :=
  match pipesRef (R s) with
  | first :: _ =>
      let s :=
        if Qcltb (pipe_x first + pipeW cfg) (birdX cfg)
           && Z.eqb (passedPipeIndexRef (R s)) 0
        then
          let s := onR (set_scoreRef (scoreRef (R s) + 1)%Z) s in
          let s := onU (set_score (scoreRef (R s))) s in
          (* ensure we don't double count until this pipe leaves *)
          onR (set_passedPipeIndexRef 1%Z) s
        else s in
      if Qcltb (pipe_x first + pipeW cfg) (birdX cfg - birdR cfg)
      then onR (set_passedPipeIndexRef 0%Z) s
      else s
  | [] => s
  end.

(** "Collisions: with ground/ceiling" *)
Definition collideGround (s : world) : world :=
  if Qcleb (h cfg - groundH cfg) (birdYRef (R s) + birdR cfg)
     || Qcleb (birdYRef (R s) - birdR cfg) 0
  then onR (set_gameOverRef true) s
  else s.

(** "Collisions: with pipes" *)
Definition collidePipes (s : world) : world :=
  if existsb (collides (birdX cfg) (birdYRef (R s)) (birdR cfg))
             (pipesRef (R s))
  then onR (set_gameOverRef true) s
  else s.

(** "Update best", in the [draw] of the render whose [best] is [b]. *)
Definition updateBest (b : Qc) (s : world) : world :=
  if gameOverRef (R s) then
    if Qcltb b (Z2Qc (scoreRef (R s))) then
      let s := onU (set_best (Z2Qc (scoreRef (R s)))) s in
      onE (set_localStorage (Some (String_ (scoreRef (R s))))) s
    else s
  else s.

(** The guard of the "Move/update" block. *)
Definition running (s : world) : bool :=
  gameStartedRef (R s) && negb (pausedRef (R s)) && negb (gameOverRef (R s)).

(** [draw(ctx, dt)] of the render whose [best] is [b].  The canvas calls
    that follow the update read the state and do not change it. *)
Definition draw (b : Qc) (dt : Qc) (rnd : Qc) (s : world) : world :=
  if running s then
    let s := birdPhysics dt s in
    let s := pipesMovement dt s in
    let s := spawnPipes dt rnd s in
    let s := removeOffscreen s in
    let s := scoring s in
    let s := collideGround s in
    let s := collidePipes s in
    updateBest b s
  else s.

(** The "Delta time" lines of [loop]:
[[
  let dt = 0;
  if (lastTimeRef.current) dt = Math.min(0.033, (ts - lastTimeRef.current) / 1000);
]] *)
Definition deltaTime (lastTime ts : Qc) : Qc :=
  if negb (Qceqb lastTime 0)
  then Math_min (Q2Qc (33 # 1000)) ((ts - lastTime) / Z2Qc 1000)
  else 0.

(** [loop(ts)] of the render whose [best] is [b].  The canvas element is
    mounted whenever a frame callback runs, so the [if (!canvas) return]
    guard does not fire; resizing the canvas does not touch the state. *)
Definition loop (b : Qc) (ts : Qc) (rnd : Qc) (s : world) : world :=
  if pausedRef (R s) then s (* stop drawing while paused *)
  else
    let dt := deltaTime (lastTimeRef (R s)) ts in
    let s := onR (set_lastTimeRef ts) s in
    let s := draw b dt rnd s in
    if negb (gameOverRef (R s)) then requestAnimationFrame b s
    else s.

(** ** The component in its environment *)

(** The first render and the mount effect: the refs and the state get
    their initial values, then the effect calls [resetGame()] and
    registers the first frame. *)
Definition mount (stored : option string) : world :=
  let b := finite_value (best_init stored) in
  let s :=
    {| R := {| rafRef := 0; lastSpawnRef := 0; lastTimeRef := 0;
               gameStartedRef := false; pausedRef := false;
               gameOverRef := false; birdYRef := 0; birdVYRef := 0;
               pipesRef := []; scoreRef := 0%Z; passedPipeIndexRef := 0%Z |};
       U := {| score := 0%Z; best := b; showHelp := true |};
       E := {| localStorage := stored; rafQueue := []; nextRafId := 1;
               effectBest := b |} |} in
  requestAnimationFrame b (resetGame s).

(** What can happen to the mounted component.  The keyboard handler
    [onKey] is created in the mount effect, so the [loop] it registers
    is the one of the first render.  The pointer handler and the two
    buttons are attached again at every render; a render follows every
    change of [best], so their [loop] sees the current [best]. *)
Inductive event :=
| KeySpace            (* Space or ArrowUp *)
| KeyP
| KeyR
| PointerDown         (* [handlePointer] *)
| ClickRestart        (* [restart] *)
| ClickPause          (* the button bound to [togglePause] *)
| Frame (ts : Qc) (rnd : Qc).

Definition restart (b : Qc) (s : world) : world :=
  requestAnimationFrame b (resetGame s).

(** One animation frame: the callbacks registered so far are taken off
    the queue and each is called with the frame's timestamp. *)
Definition frame (ts rnd : Qc) (s : world) : world :=
  let q := rafQueue (E s) in
  let s :=
    onE (fun e => {| localStorage := localStorage e; rafQueue := [];
                     nextRafId := nextRafId e;
                     effectBest := effectBest e |}) s in
  fold_left (fun s b => loop b ts rnd s) q s.

Definition handle (ev : event) (s : world) : world :=
  match ev with
  | KeySpace =>
      let s := flap s in
      if Nat.eqb (rafRef (R s)) 0 && negb (pausedRef (R s))
      then requestAnimationFrame (effectBest (E s)) s
      else s
  | KeyP => togglePause (effectBest (E s)) s
  | KeyR => requestAnimationFrame (effectBest (E s)) (resetGame s)
  | PointerDown => handlePointer (best (U s)) s
  | ClickRestart => restart (best (U s)) s
  | ClickPause => togglePause (best (U s)) s
  | Frame ts rnd => frame ts rnd s
  end.

Definition run (evs : list event) (s : world) : world :=
  fold_left (fun s ev => handle ev s) evs s.

(** The tilt of the bird, computed in the drawing part of [draw]:
[[
  const tilt = Math.max(-0.6, Math.min(0.6, birdVYRef.current / 500));
]] *)
Definition tilt (s : world) : Qc :=
  Math_max (Q2Qc (-6 # 10))
           (Math_min (Q2Qc (6 # 10)) (birdVYRef (R s) / Z2Qc 500)).

(** * Notions used in the statements *)

(** The fields that the update block of [draw] never writes. *)
Definition same_control (s s' : world) : Prop :=
  rafRef (R s') = rafRef (R s)
  /\ lastTimeRef (R s') = lastTimeRef (R s)
  /\ gameStartedRef (R s') = gameStartedRef (R s)
  /\ pausedRef (R s') = pausedRef (R s)
  /\ showHelp (U s') = showHelp (U s)
  /\ rafQueue (E s') = rafQueue (E s)
  /\ nextRafId (E s') = nextRafId (E s)
  /\ effectBest (E s') = effectBest (E s).

(** Two integration steps of half the length, with no flap between. *)
Definition twoHalfSteps (dt : Qc) (s : world) : world :=
  birdPhysics (dt / Z2Qc 2) (birdPhysics (dt / Z2Qc 2) s).

(** [a] and [b] differ by at most [tol]. *)
Definition within (tol a b : Qc) : Prop := a - b <= tol /\ b - a <= tol.

(** The pipe's right edge is left of the field's left edge. *)
Definition offscreen (p : pipe) : Prop := pipe_x p + pipeW cfg < 0.

(** The oldest pipe, if there is one, is not off-screen. *)
Definition head_onscreen (ps : list pipe) : Prop :=
  match ps with
  | first :: _ => ~ offscreen first
  | [] => True
  end.

(** The pipe that "Spawn pipes" appends, if any. *)
Definition spawned (dt rnd : Qc) (s : world) : list pipe :=
  if Qcleb (spawnEvery cfg) (lastSpawnRef (R s) + dt * Z2Qc 1000)
  then [{| pipe_x := w cfg + Z2Qc 40;
           pipe_topH := Z2Qc 60
                        + rnd * (h cfg - groundH cfg - pipeGap cfg - Z2Qc 60
                                 - Z2Qc 60) |}]
  else [].

(** The blocks after the pruning loop leave the pipes, the bird and the
    spawn accumulator alone. *)
Definition same_scene (s s' : world) : Prop :=
  pipesRef (R s') = pipesRef (R s)
  /\ birdYRef (R s') = birdYRef (R s)
  /\ birdVYRef (R s') = birdVYRef (R s)
  /\ lastSpawnRef (R s') = lastSpawnRef (R s).

(** What a tick must not touch while the game is paused or not
    started. *)
Definition simulation (s : world)
  : Qc * Qc * list pipe * Z * Z * Qc * Z * bool * Qc :=
  (birdYRef (R s), birdVYRef (R s), pipesRef (R s), scoreRef (R s),
   score (U s), lastSpawnRef (R s), passedPipeIndexRef (R s),
   gameOverRef (R s), best (U s)).

(** Paused, or not started. *)
Definition idle (s : world) : Prop :=
  pausedRef (R s) = true \/ gameStartedRef (R s) = false.

(** What holds in every state the mounted component can reach: the
    over flag is only set in a started, unpaused game; a frame has been
    requested at least once; the spawn accumulator is below the spawn
    interval and the oldest pipe is on screen (both are re-established
    by every update of [draw]). *)
Record Inv (s : world) : Prop := {
  inv_over_started :
    gameOverRef (R s) = true -> gameStartedRef (R s) = true;
  inv_over_unpaused :
    gameOverRef (R s) = true -> pausedRef (R s) = false;
  inv_raf : rafRef (R s) <> 0%nat;
  inv_nextRaf : nextRafId (E s) <> 0%nat;
  inv_lastSpawn : lastSpawnRef (R s) < spawnEvery cfg;
  inv_head : head_onscreen (pipesRef (R s))
}.

(** Both halves of the gap keep 60 px of clearance: from the top of the
    field and from the ground band. *)
Definition gap_ok (p : pipe) : Prop :=
  Z2Qc 60 <= pipe_topH p
  /\ pipe_topH p + pipeGap cfg <= h cfg - groundH cfg - Z2Qc 60.

(** [Math.random()] returns a number in [[0, 1)]. *)
Definition valid_event (ev : event) : Prop :=
  match ev with
  | Frame _ rnd => 0 <= rnd /\ rnd < 1
  | _ => True
  end.

(** Frames arrive every 1/64 s (15.625 ms), a rate close to 60 Hz whose
    period is a dyadic number. *)
Definition tick : Qc := Q2Qc (125 # 8).

(** [n] consecutive frames starting at time [t], numbered from [i]; the
    player presses Space just before every frame whose number satisfies
    [flapAt].  Every random draw is 1/2. *)
Fixpoint play (flapAt : nat -> bool) (n i : nat) (t : Qc) : list event :=
  match n with
  | O => []
  | S n' =>
      (if flapAt i then [KeySpace] else [])
        ++ Frame t (Q2Qc (1 # 2)) :: play flapAt n' (S i) (t + tick)
  end.

(** Flap at every [p]-th frame before frame [limit]. *)
Definition every (p limit : nat) (i : nat) : bool :=
  Nat.eqb (Nat.modulo i p) 0 && Nat.ltb i limit.

(** A single flap, after which the bird falls to the ground. *)
Definition fall : list event := play (every 1 1) 70 0 (Z2Qc 1000).

(** The bird and the pipes as the renderer sees them. *)
Definition scene (s : world) : Qc * Qc * list pipe :=
  (birdYRef (R s), birdVYRef (R s), pipesRef (R s)).

(** A run with a pipe on screen that is paused and resumed. *)
Definition resumed : list event :=
  play (every 29 120) 120 0 (Z2Qc 1000) ++ [KeyP; KeyP].

(** A small state of a run in progress: one pipe whose right edge (at
    x = 60) is already behind the bird's trailing edge (x = 76), flag
    clear, score 0, one frame callback registered. *)
Definition behind_the_bird : world :=
  {| R := {| rafRef := 1; lastSpawnRef := 0; lastTimeRef := Z2Qc 1000;
             gameStartedRef := true; pausedRef := false;
             gameOverRef := false; birdYRef := Z2Qc 300; birdVYRef := 0;
             pipesRef := [{| pipe_x := Z2Qc (-10); pipe_topH := Z2Qc 200 |}];
             scoreRef := 0%Z; passedPipeIndexRef := 0%Z |};
     U := {| score := 0%Z; best := 0; showHelp := false |};
     E := {| localStorage := None; rafQueue := [0]; nextRafId := 2;
             effectBest := 0 |} |}.

(** The player starts the game and flaps at every 29th frame, which
    keeps the bird inside the gap of the first pipe. *)
Definition hover : nat -> bool := every 29 292.

(** The score after the first [n] frames of that session. *)
Definition score_after (n : nat) : Z :=
  scoreRef (R (run (play hover n 0 (Z2Qc 1000)) (mount None))).

(** The number of pipes after the first [n] frames of that session. *)
Definition pipes_after (n : nat) : nat :=
  List.length (pipesRef (R (run (play hover n 0 (Z2Qc 1000)) (mount None)))).

(** A first run that passes one pipe and then ends, followed by a
    restart with the R key and a second run that ends earlier. *)
Definition first_run : list event := play (every 29 292) 360 0 (Z2Qc 1000).

(** The timestamps go on from the end of the first run
    (1000 + 360 * 15.625 = 6625). *)
Definition second_run : list event :=
  KeyR :: play (every 29 240) 330 0 (Z2Qc 6625).

(** The point [(px, py)] belongs to the rectangle with corner
    [(rx, ry)], width [rw] and height [rh]. *)
Definition in_rect (rx ry rw rh px py : Qc) : Prop :=
  rx <= px /\ px <= rx + rw /\ ry <= py /\ py <= ry + rh.

(** The squared distance between two points. *)
Definition dist2 (ax ay bx by_ : Qc) : Qc :=
  (ax - bx) * (ax - bx) + (ay - by_) * (ay - by_).

(** The two rectangles that [collides] builds for the pipe have
    non-negative heights: the top one ends at [topH >= 0], the bottom
    one starts at [topH + pipeGap], not below the ground line. *)
Definition pipe_fits (p : pipe) : Prop :=
  0 <= pipe_topH p /\ pipe_topH p + pipeGap cfg <= h cfg - groundH cfg.

(** What the blocks of [draw] before the scoring block leave alone. *)
Definition same_progress (s s' : world) : Prop :=
  scoreRef (R s') = scoreRef (R s)
  /\ score (U s') = score (U s)
  /\ gameOverRef (R s') = gameOverRef (R s)
  /\ best (U s') = best (U s)
  /\ localStorage (E s') = localStorage (E s).

(** The test of "Collisions: with ground/ceiling" at height [y]. *)
Definition hits_bounds (y : Qc) : bool :=
  Qcleb (h cfg - groundH cfg) (y + birdR cfg) || Qcleb (y - birdR cfg) 0.

(** The outcome of the loop of "Collisions: with pipes" at height [y]. *)
Definition hits_pipe (y : Qc) (ps : list pipe) : bool :=
  existsb (collides (birdX cfg) y (birdR cfg)) ps.

(** More of what holds in every state the mounted component can reach:
    the displayed score is the score, the score is not negative, the
    passed flag is 0 or 1, and while the game is not over the bird
    touches neither the bounds nor a pipe. *)
Record Inv2 (s : world) : Prop := {
  inv_score_shown : score (U s) = scoreRef (R s);
  inv_score_nonneg : (0 <= scoreRef (R s))%Z;
  inv_passed_bit :
    passedPipeIndexRef (R s) = 0%Z \/ passedPipeIndexRef (R s) = 1%Z;
  inv_alive_inside :
    gameOverRef (R s) = false -> hits_bounds (birdYRef (R s)) = false;
  inv_alive_clear :
    gameOverRef (R s) = false ->
    hits_pipe (birdYRef (R s)) (pipesRef (R s)) = false
}.

(** What flaps, pause toggles and frame requests leave alone. *)
Definition same_game (s s' : world) : Prop :=
  score (U s') = score (U s)
  /\ scoreRef (R s') = scoreRef (R s)
  /\ passedPipeIndexRef (R s') = passedPipeIndexRef (R s)
  /\ gameOverRef (R s') = gameOverRef (R s)
  /\ birdYRef (R s') = birdYRef (R s)
  /\ pipesRef (R s') = pipesRef (R s)
  /\ best (U s') = best (U s)
  /\ localStorage (E s') = localStorage (E s).

(** [p] is not to the right of [q]. *)
Definition left_of (p q : pipe) : Prop := pipe_x p <= pipe_x q.

(** Oldest first means leftmost first, and no pipe is to the right of
    the spawn position. *)
Definition ordered (ps : list pipe) : Prop :=
  StronglySorted left_of ps
  /\ Forall (fun p => pipe_x p <= w cfg + Z2Qc 40) ps.

(** The frames of [evs] carry timestamps that never go back, starting
    from [t]. *)
Fixpoint monotone (t : Qc) (evs : list event) : Prop :=
  match evs with
  | [] => True
  | Frame ts _ :: rest => t <= ts /\ monotone ts rest
  | _ :: rest => monotone t rest
  end.

(** The stored time reference is the reset value or is not after [t]. *)
Definition timed (t : Qc) (s : world) : Prop :=
  lastTimeRef (R s) = 0 \/ lastTimeRef (R s) <= t.

(** The characters of a decimal numeral, and the integer they denote
    (on top of the digits already read, [acc]). *)
Definition chars (d : Decimal.uint) : list ascii :=
  list_ascii_of_string (NilEmpty.string_of_uint d).

Fixpoint uint_value (d : Decimal.uint) (acc : Z) : Z :=
  match d with
  | Decimal.Nil => acc
  | Decimal.D0 l => uint_value l (acc * 10 + 0)
  | Decimal.D1 l => uint_value l (acc * 10 + 1)
  | Decimal.D2 l => uint_value l (acc * 10 + 2)
  | Decimal.D3 l => uint_value l (acc * 10 + 3)
  | Decimal.D4 l => uint_value l (acc * 10 + 4)
  | Decimal.D5 l => uint_value l (acc * 10 + 5)
  | Decimal.D6 l => uint_value l (acc * 10 + 6)
  | Decimal.D7 l => uint_value l (acc * 10 + 7)
  | Decimal.D8 l => uint_value l (acc * 10 + 8)
  | Decimal.D9 l => uint_value l (acc * 10 + 9)
  end%Z.

(** [n] consecutive "Bird physics" steps of length [dt], with no flap
    between them. *)
Fixpoint fallFor (n : nat) (dt : Qc) (s : world) : world :=
  match n with
  | O => s
  | S n' => birdPhysics dt (fallFor n' dt s)
  end.

Definition N2Qc (n : nat) : Qc := Z2Qc (Z.of_nat n).


(** Frames and flaps, the events of a player who just keeps playing. *)
Definition frame_or_flap (ev : event) : Prop :=
  match ev with
  | Frame _ _ | KeySpace | PointerDown => True
  | _ => False
  end.

(** Consecutive pipes are at least 210 px apart (150 px/s for the
    1.4 s between two spawns). *)
Fixpoint spaced (ps : list pipe) : Prop :=
  match ps with
  | p :: (q :: _) as rest => pipe_x p + Z2Qc 210 <= pipe_x q /\ spaced rest
  | _ => True
  end.

(** The newest pipe is as far from the spawn position as the spawn
    accumulator (in ms, at 0.15 px/ms) tells. *)
Definition newest_tracks (ps : list pipe) (lastSpawn : Qc) : Prop :=
  forall front p,
    ps = front ++ [p] ->
    w cfg + Z2Qc 40 - pipe_x p = Q2Qc (150 # 1000) * lastSpawn.

Definition spacing (s : world) : Prop :=
  spaced (pipesRef (R s))
  /\ newest_tracks (pipesRef (R s)) (lastSpawnRef (R s)).



(** * Properties *)

(** ** Comparisons on [Qc] *)

Lemma Qcltb_lt (a b : Qc) : Qcltb a b = true <-> a < b.
Proof.
  unfold Qcltb. rewrite Qclt_alt.
  destruct (a ?= b); split; congruence.
Qed.

Lemma Qcltb_ge (a b : Qc) : Qcltb a b = false <-> b <= a.
Proof.
  split; intro H.
  - apply Qcnot_lt_le. intro L. apply Qcltb_lt in L. congruence.
  - destruct (Qcltb a b) eqn:L; [|reflexivity].
    apply Qcltb_lt in L. exfalso. exact (Qcle_not_lt _ _ H L).
Qed.

Lemma Qcleb_le (a b : Qc) : Qcleb a b = true <-> a <= b.
Proof.
  unfold Qcleb. rewrite Qcle_alt.
  destruct (a ?= b); split; congruence.
Qed.

Lemma Qcleb_gt (a b : Qc) : Qcleb a b = false <-> b < a.
Proof.
  split; intro H.
  - apply Qcnot_le_lt. intro L. apply Qcleb_le in L. congruence.
  - destruct (Qcleb a b) eqn:L; [|reflexivity].
    apply Qcleb_le in L. exfalso. exact (Qcle_not_lt _ _ L H).
Qed.

Lemma Qceqb_eq (a b : Qc) : Qceqb a b = true <-> a = b.
Proof.
  unfold Qceqb. rewrite Qceq_alt.
  destruct (a ?= b); split; congruence.
Qed.

Lemma Qceqb_refl (a : Qc) : Qceqb a a = true.
Proof. apply Qceqb_eq. reflexivity. Qed.

Lemma two_is_one_plus_one : Z2Qc 2 = 1 + 1.
Proof. apply Qc_is_canon. reflexivity. Qed.

Lemma four_is_two_twos : Z2Qc 4 = (1 + 1) * (1 + 1).
Proof. apply Qc_is_canon. reflexivity. Qed.

(** ** Reading fields through updates *)

Ltac proj :=
  cbn [R U E onR onU onE
       rafRef lastSpawnRef lastTimeRef gameStartedRef pausedRef gameOverRef
       birdYRef birdVYRef pipesRef scoreRef passedPipeIndexRef
       score best showHelp localStorage rafQueue nextRafId effectBest
       set_rafRef set_lastSpawnRef set_lastTimeRef set_gameStartedRef
       set_pausedRef set_gameOverRef set_birdYRef set_birdVYRef set_pipesRef
       set_scoreRef set_passedPipeIndexRef set_score set_best set_showHelp
       set_localStorage] in *.

Ltac split_if :=
  match goal with
  | |- context [if ?c then _ else _] => destruct c eqn:?
  | |- context [match ?c with _ => _ end] => destruct c eqn:?
  end.

Ltac frame_tac :=
  proj; repeat (split_if; proj); repeat split; (reflexivity || congruence).

Lemma same_control_refl s : same_control s s.
Proof. repeat split. Qed.

Lemma same_control_trans s1 s2 s3 :
  same_control s1 s2 -> same_control s2 s3 -> same_control s1 s3.
Proof.
  unfold same_control. intros H1 H2.
  repeat match goal with H : _ /\ _ |- _ => destruct H end.
  repeat split; congruence.
Qed.

Lemma birdPhysics_control dt s : same_control s (birdPhysics dt s).
Proof. unfold same_control, birdPhysics. frame_tac. Qed.

Lemma pipesMovement_control dt s : same_control s (pipesMovement dt s).
Proof. unfold same_control, pipesMovement. frame_tac. Qed.

Lemma spawnPipes_control dt rnd s : same_control s (spawnPipes dt rnd s).
Proof. unfold same_control, spawnPipes, spawnPipe. frame_tac. Qed.

Lemma removeOffscreen_control s : same_control s (removeOffscreen s).
Proof. unfold same_control, removeOffscreen. frame_tac. Qed.

Lemma scoring_control s : same_control s (scoring s).
Proof. unfold same_control, scoring. frame_tac. Qed.

Lemma collideGround_control s : same_control s (collideGround s).
Proof. unfold same_control, collideGround. frame_tac. Qed.

Lemma collidePipes_control s : same_control s (collidePipes s).
Proof. unfold same_control, collidePipes. frame_tac. Qed.

Lemma updateBest_control b s : same_control s (updateBest b s).
Proof. unfold same_control, updateBest. frame_tac. Qed.

Lemma draw_control b dt rnd s : same_control s (draw b dt rnd s).
Proof.
  unfold draw. destruct (running s); [|apply same_control_refl].
  cbv zeta.
  eapply same_control_trans; [|apply updateBest_control].
  eapply same_control_trans; [|apply collidePipes_control].
  eapply same_control_trans; [|apply collideGround_control].
  eapply same_control_trans; [|apply scoring_control].
  eapply same_control_trans; [|apply removeOffscreen_control].
  eapply same_control_trans; [|apply spawnPipes_control].
  eapply same_control_trans; [|apply pipesMovement_control].
  apply birdPhysics_control.
Qed.

(** ** Physics integration (C3) *)

Ltac Qc_neq :=
  let E := fresh in
  intro E; apply Qceqb_eq in E; vm_compute in E; discriminate E.

(** C3, counterexample.  With the configured gravity and a step of
    1/32 s (below the 33 ms cap of [loop]), starting at rest from the
    freshly mounted state, one full step and two half steps put the bird
    at heights that differ by more than a quarter of a pixel: they are
    not within any floating-point tolerance of each other.  All values
    involved are dyadic, so doubles compute them exactly. *)
Lemma euler_half_steps_differ :
  ~ within (Q2Qc (1 # 4))
      (birdYRef (R (twoHalfSteps (Q2Qc (1 # 32)) (mount None))))
      (birdYRef (R (birdPhysics (Q2Qc (1 # 32)) (mount None)))).
Proof.
  intros [_ H]. apply Qcleb_le in H. vm_compute in H. discriminate H.
Qed.

(** C3, amended.  For every step [dt] and every state, integrating
    twice with [dt/2] reaches the same velocity as integrating once
    with [dt], and the position after the single step exceeds the
    position after the two half steps by exactly [gravity * dt^2 / 4]. *)
Theorem euler_half_steps_gap (dt : Qc) (s : world) :
  birdVYRef (R (twoHalfSteps dt s)) = birdVYRef (R (birdPhysics dt s))
  /\ birdYRef (R (birdPhysics dt s)) - birdYRef (R (twoHalfSteps dt s))
     = gravity cfg * dt * dt / Z2Qc 4.
Proof.
  unfold twoHalfSteps, birdPhysics. proj.
  rewrite four_is_two_twos, two_is_one_plus_one.
  split; field; repeat split; Qc_neq.
Qed.

(** The two positions coincide exactly when [gravity * dt^2] vanishes;
    with the configured gravity, only for [dt = 0]. *)
Lemma euler_half_steps_agree_at_zero (s : world) :
  birdYRef (R (twoHalfSteps 0 s)) = birdYRef (R (birdPhysics 0 s)).
Proof.
  unfold twoHalfSteps, birdPhysics. proj.
  rewrite two_is_one_plus_one.
  field; Qc_neq.
Qed.

(** ** Pruning (C5) *)

Lemma prune_drops_prefix (ps : list pipe) :
  forall passed,
    exists gone,
      ps = gone ++ fst (prune ps passed)
      /\ Forall offscreen gone
      /\ head_onscreen (fst (prune ps passed)).
Proof.
  induction ps as [|p ps IH]; intro passed; cbn [prune].
  - exists []. repeat split. constructor.
  - destruct (Qcltb (pipe_x p + pipeW cfg) 0) eqn:Hp.
    + destruct (IH (Z.max 0 (passed - 1))) as (gone & Heq & Hgone & Hhead).
      exists (p :: gone). repeat split.
      * cbn [app]. f_equal. exact Heq.
      * constructor; [apply Qcltb_lt; exact Hp | exact Hgone].
      * exact Hhead.
    + exists []. repeat split.
      * constructor.
      * cbn [fst head_onscreen]. unfold offscreen. intro L.
        apply Qcltb_lt in L. congruence.
Qed.

Lemma prune_onscreen_id (ps : list pipe) (passed : Z) :
  head_onscreen ps -> prune ps passed = (ps, passed).
Proof.
  destruct ps as [|p ps]; cbn [prune head_onscreen]; intro Hh; [reflexivity|].
  destruct (Qcltb (pipe_x p + pipeW cfg) 0) eqn:Hp; [|reflexivity].
  apply Qcltb_lt in Hp. contradiction.
Qed.

Lemma spawnPipes_pipes dt rnd s :
  pipesRef (R (spawnPipes dt rnd s)) = pipesRef (R s) ++ spawned dt rnd s.
Proof.
  unfold spawnPipes, spawnPipe, spawned. proj.
  destruct (Qcleb _ _); proj; [reflexivity|].
  symmetry. apply app_nil_r.
Qed.

Lemma removeOffscreen_pipes s :
  pipesRef (R (removeOffscreen s))
  = fst (prune (pipesRef (R s)) (passedPipeIndexRef (R s))).
Proof.
  unfold removeOffscreen.
  destruct (prune _ _) as [ps passed]. reflexivity.
Qed.

Lemma same_scene_trans s1 s2 s3 :
  same_scene s1 s2 -> same_scene s2 s3 -> same_scene s1 s3.
Proof.
  unfold same_scene. intros H1 H2.
  repeat match goal with H : _ /\ _ |- _ => destruct H end.
  repeat split; congruence.
Qed.

Lemma scoring_scene s : same_scene s (scoring s).
Proof. unfold same_scene, scoring. frame_tac. Qed.

Lemma collideGround_scene s : same_scene s (collideGround s).
Proof. unfold same_scene, collideGround. frame_tac. Qed.

Lemma collidePipes_scene s : same_scene s (collidePipes s).
Proof. unfold same_scene, collidePipes. frame_tac. Qed.

Lemma updateBest_scene b s : same_scene s (updateBest b s).
Proof. unfold same_scene, updateBest. frame_tac. Qed.

Lemma after_prune_scene b s :
  same_scene s (updateBest b (collidePipes (collideGround (scoring s)))).
Proof.
  eapply same_scene_trans; [|apply updateBest_scene].
  eapply same_scene_trans; [|apply collidePipes_scene].
  eapply same_scene_trans; [|apply collideGround_scene].
  apply scoring_scene.
Qed.

Lemma draw_pipes b dt rnd s :
  pipesRef (R (draw b dt rnd s))
  = if running s
    then fst (prune (map (movePipe dt) (pipesRef (R s)) ++ spawned dt rnd s)
                    (passedPipeIndexRef (R s)))
    else pipesRef (R s).
Proof.
  unfold draw. destruct (running s); [|reflexivity]. cbv zeta.
  destruct (after_prune_scene b
              (removeOffscreen
                 (spawnPipes dt rnd (pipesMovement dt (birdPhysics dt s)))))
    as (-> & _).
  rewrite removeOffscreen_pipes, spawnPipes_pipes.
  unfold spawnPipes, spawned, pipesMovement, birdPhysics. proj.
  destruct (Qcleb _ _); reflexivity.
Qed.

Lemma loop_pipes b ts rnd s :
  pipesRef (R (loop b ts rnd s))
  = if running s
    then let dt := deltaTime (lastTimeRef (R s)) ts in
         fst (prune (map (movePipe dt) (pipesRef (R s)) ++ spawned dt rnd s)
                    (passedPipeIndexRef (R s)))
    else pipesRef (R s).
Proof.
  unfold loop.
  destruct (pausedRef (R s)) eqn:Hp.
  - unfold running. rewrite Hp, andb_false_r. reflexivity.
  - cbv zeta.
    assert (Hd := draw_pipes b (deltaTime (lastTimeRef (R s)) ts) rnd
                    (onR (set_lastTimeRef ts) s)).
    destruct (negb (gameOverRef _)); unfold requestAnimationFrame; proj;
      rewrite Hd; reflexivity.
Qed.

(** C5.  The pruning loop removes a prefix of the sequence, every pipe
    of that prefix has its right edge left of x = 0, and the pipe left
    at the head (if any) has not: exactly the leading off-screen pipes
    go, oldest first, one element each.  A tick of a run in progress
    yields the moved pipes, followed by the pipe spawned in that tick
    (if any), pruned in this way; a tick outside a run, a flap and a
    pause toggle leave the sequence as it is.  So nothing but pruning
    ever removes a pipe during a run, and never from the middle. *)
Theorem pruning_removes_leading_offscreen_only :
  (forall ps passed,
      exists gone,
        ps = gone ++ fst (prune ps passed)
        /\ Forall offscreen gone
        /\ head_onscreen (fst (prune ps passed))
        /\ List.length (fst (prune ps passed))
           = (List.length ps - List.length gone)%nat)
  /\ (forall b ts rnd s,
         pipesRef (R (loop b ts rnd s))
         = if running s
           then let dt := deltaTime (lastTimeRef (R s)) ts in
                fst (prune (map (movePipe dt) (pipesRef (R s))
                              ++ spawned dt rnd s)
                           (passedPipeIndexRef (R s)))
           else pipesRef (R s))
  /\ (forall s, pipesRef (R (flap s)) = pipesRef (R s))
  /\ (forall b s, pipesRef (R (togglePause b s)) = pipesRef (R s)).
Proof.
  split; [|split; [|split]].
  - intros ps passed.
    destruct (prune_drops_prefix ps passed) as (gone & Heq & Hgone & Hhead).
    exists gone. repeat split; try assumption.
    rewrite Heq at 2. rewrite List.length_app. lia.
  - apply loop_pipes.
  - intro s. unfold flap. frame_tac.
  - intros b s. unfold togglePause, requestAnimationFrame. frame_tac.
Qed.

Ltac conjs := repeat match goal with |- _ /\ _ => split end.

(** ** Reset (C7) *)

(** What [resetGame] writes, from any state: the score (ref and
    displayed) becomes 0, [started] false, the pipe sequence empty, the
    bird sits at mid-field with zero velocity, the spawn accumulator and
    the time reference are 0, the over and passed flags are clear.  The
    best score and the stored best score are not touched, and neither
    is the paused flag: [resetGame] has no assignment to
    [pausedRef]. *)
Lemma resetGame_effect (s : world) :
  let s' := resetGame s in
  scoreRef (R s') = 0%Z
  /\ score (U s') = 0%Z
  /\ gameStartedRef (R s') = false
  /\ pipesRef (R s') = []
  /\ birdYRef (R s') = h cfg / Z2Qc 2
  /\ birdVYRef (R s') = 0
  /\ lastSpawnRef (R s') = 0
  /\ lastTimeRef (R s') = 0
  /\ gameOverRef (R s') = false
  /\ passedPipeIndexRef (R s') = 0%Z
  /\ best (U s') = best (U s)
  /\ localStorage (E s') = localStorage (E s)
  /\ pausedRef (R s') = pausedRef (R s).
Proof. unfold resetGame. proj. repeat split. Qed.

(** C7, on the code.  From any state, [resetGame] sets the score to 0,
    [started] to false, the pipe sequence to empty, the bird to
    mid-field with zero velocity, the spawn accumulator and the time
    reference to 0, and clears the over and passed flags, leaving the
    best score unchanged; but it leaves the paused flag as it was.
    The consequence, on a session: start a run, pause it, press R.  The
    paused flag is still set after the reset.  The frame that the R
    handler requested then returns at once ("stop drawing while
    paused") and registers nothing; the flap that starts the next run
    clears the paused flag but requests no frame either, because
    [rafRef] is set.  The flags now say that a run is in progress, no
    frame callback is registered, and two more frames leave the bird
    where it was. *)
Theorem resetGame_leaves_paused_set :
  (forall s0 : world,
     let s' := resetGame s0 in
     scoreRef (R s') = 0%Z
     /\ score (U s') = 0%Z
     /\ gameStartedRef (R s') = false
     /\ pipesRef (R s') = []
     /\ birdYRef (R s') = h cfg / Z2Qc 2
     /\ birdVYRef (R s') = 0
     /\ lastSpawnRef (R s') = 0
     /\ lastTimeRef (R s') = 0
     /\ gameOverRef (R s') = false
     /\ passedPipeIndexRef (R s') = 0%Z
     /\ best (U s') = best (U s0)
     /\ localStorage (E s') = localStorage (E s0)
     /\ pausedRef (R s') = pausedRef (R s0))
  /\ let s := run [KeySpace; Frame (Z2Qc 1000) 0; KeyP; KeyR] (mount None) in
     let s1 := run [Frame (Z2Qc 2000) 0; KeySpace] s in
     let s2 := run [Frame (Z2Qc 2016) 0; Frame (Z2Qc 2032) 0] s1 in
     (pausedRef (R s) = true
      /\ gameStartedRef (R s) = false
      /\ gameOverRef (R s) = false
      /\ scoreRef (R s) = 0%Z
      /\ pipesRef (R s) = [])
     /\ (running s1 = true /\ rafQueue (E s1) = [])
     /\ (running s2 = true
         /\ birdYRef (R s2) = birdYRef (R s1)
         /\ birdVYRef (R s2) = birdVYRef (R s1)).
Proof.
  split.
  - intro s0. exact (resetGame_effect s0).
  - cbv zeta. conjs; vm_compute; reflexivity.
Qed.

(** ** Ticks outside a run (C8) *)

Lemma draw_not_running b dt rnd s : running s = false -> draw b dt rnd s = s.
Proof. unfold draw. intros ->. reflexivity. Qed.

Lemma idle_not_running s : idle s -> running s = false.
Proof.
  unfold idle, running. intros [-> | ->]; [|reflexivity].
  rewrite andb_false_r. reflexivity.
Qed.

Lemma loop_idle b ts rnd s :
  idle s ->
  simulation (loop b ts rnd s) = simulation s /\ idle (loop b ts rnd s).
Proof.
  intro Hi. unfold loop.
  destruct (pausedRef (R s)) eqn:Hp; [split; [reflexivity | exact Hi]|].
  assert (Hs : gameStartedRef (R s) = false)
    by (destruct Hi as [Hi | Hi]; congruence).
  cbv zeta. rewrite draw_not_running.
  - unfold simulation, idle, requestAnimationFrame. proj.
    destruct (negb (gameOverRef (R s))); proj; split; auto.
  - unfold running. proj. rewrite Hs. reflexivity.
Qed.

Lemma loops_idle ts rnd (q : list Qc) :
  forall s,
    idle s ->
    simulation (fold_left (fun s b => loop b ts rnd s) q s) = simulation s.
Proof.
  induction q as [|b q IH]; intros s Hi; cbn [fold_left]; [reflexivity|].
  destruct (loop_idle b ts rnd s Hi) as [Hsim Hi'].
  rewrite IH by exact Hi'. exact Hsim.
Qed.

(** C8.  A frame delivered while the game is paused or not started,
    whatever its timestamp and however many frame callbacks are
    registered, leaves the bird's position and velocity, the pipe
    sequence (hence every pipe's position), the score, the spawn
    accumulator, the passed flag, the over flag and the best score
    unchanged. *)
Theorem idle_tick_changes_nothing (ts rnd : Qc) (s : world) :
  pausedRef (R s) = true \/ gameStartedRef (R s) = false ->
  simulation (handle (Frame ts rnd) s) = simulation s.
Proof.
  intro Hi. cbn [handle]. unfold frame. cbv zeta.
  rewrite loops_idle; [reflexivity | exact Hi].
Qed.

Lemma idle_tick_changes_nothing_witness :
  simulation (handle (Frame (Z2Qc 5000) (Q2Qc (1 # 2)))
                (run [KeySpace; Frame (Z2Qc 1000) 0; KeyP] (mount None)))
  = simulation (run [KeySpace; Frame (Z2Qc 1000) 0; KeyP] (mount None)).
Proof.
  apply (idle_tick_changes_nothing (Z2Qc 5000) (Q2Qc (1 # 2))
           (run [KeySpace; Frame (Z2Qc 1000) 0; KeyP] (mount None))).
  left. reflexivity.
Defined.

(** ** Loading the best score (C9) *)

Lemma best_init_is_finite stored : Number_isFinite (best_init stored) = true.
Proof.
  unfold best_init.
  set (v := match stored with
            | None => Finite 0
            | Some EmptyString => Finite 0
            | Some s => Number s
            end).
  cbv zeta. destruct (Number_isFinite v) eqn:Hf; [exact Hf | reflexivity].
Qed.

(** Whatever [getItem] returns (nothing, a numeric string, a malformed
    string), the initial best score is a finite number; it is 0 when
    nothing is stored and whenever the stored string does not convert to
    a finite number (NaN or an infinity), and it is the converted value
    otherwise. *)
Lemma best_init_total :
  (forall stored, Number_isFinite (best_init stored) = true)
  /\ best_init None = Finite 0
  /\ (forall str,
         Number_isFinite (Number str) = false ->
         best_init (Some str) = Finite 0)
  /\ (forall str,
         Number_isFinite (Number str) = true ->
         best_init (Some str) = Number str).
Proof.
  split; [exact best_init_is_finite|].
  split; [reflexivity|].
  split; intros str Hn; unfold best_init; cbv zeta.
  - destruct str as [|c str]; [reflexivity|]. rewrite Hn. reflexivity.
  - destruct str as [|c str]; [reflexivity|]. rewrite Hn. reflexivity.
Qed.

Lemma best_init_total_witness :
  best_init (Some "12abc"%string) = Finite 0
  /\ best_init (Some "17"%string) = Number "17".
Proof.
  split.
  - apply (proj1 (proj2 (proj2 best_init_total)) "12abc"%string).
    reflexivity.
  - apply (proj2 (proj2 (proj2 best_init_total)) "17"%string).
    reflexivity.
Defined.

(** C9, counterexample.  A load that fails, [getItem] throwing, does
    not yield a best score of 0: the exception leaves the initialiser
    without a value. *)
Lemma failed_load_propagates : best_initializer Threw <> Some (Finite 0).
Proof. discriminate. Qed.

(** C9, amended.  For every value that [getItem] returns (absent,
    numeric string or malformed string) the initialiser yields a finite
    number: 0 when the entry is absent, 0 whenever the stored string
    does not convert to a finite number, and the converted value
    otherwise.  When [getItem] throws, the initialiser does not catch
    the exception and yields no best score. *)
Theorem best_initializer_total :
  (forall v, exists q, best_initializer (Returned v) = Some (Finite q))
  /\ best_initializer (Returned None) = Some (Finite 0)
  /\ (forall str,
         Number_isFinite (Number str) = false ->
         best_initializer (Returned (Some str)) = Some (Finite 0))
  /\ (forall str,
         Number_isFinite (Number str) = true ->
         best_initializer (Returned (Some str)) = Some (Number str))
  /\ best_initializer Threw = None.
Proof.
  destruct best_init_total as (Hfin & Hnone & Hbad & Hgood).
  split.
  - intro v. cbn [best_initializer]. specialize (Hfin v).
    destruct (best_init v) as [| |q]; try discriminate.
    exists q. reflexivity.
  - split; [reflexivity|].
    split; [intros str H; cbn [best_initializer]; rewrite (Hbad str H);
            reflexivity|].
    split; [intros str H; cbn [best_initializer]; rewrite (Hgood str H);
            reflexivity|].
    reflexivity.
Qed.

Lemma best_initializer_total_witness :
  best_initializer (Returned (Some "12abc"%string)) = Some (Finite 0)
  /\ best_initializer (Returned (Some "17"%string)) = Some (Number "17").
Proof.
  split.
  - apply (proj1 (proj2 (proj2 best_initializer_total)) "12abc"%string).
    reflexivity.
  - apply (proj1 (proj2 (proj2 (proj2 best_initializer_total)))
             "17"%string).
    reflexivity.
Defined.

Example best_init_absent : finite_value (best_init None) = 0.
Proof. reflexivity. Qed.

Example best_init_number :
  finite_value (best_init (Some "17"%string)) = Z2Qc 17.
Proof. apply Qc_is_canon. reflexivity. Qed.

Example best_init_fraction :
  finite_value (best_init (Some " 2.5e1 "%string)) = Z2Qc 25.
Proof. apply Qc_is_canon. reflexivity. Qed.

Example best_init_word :
  best_init (Some "high score"%string) = Finite 0.
Proof. reflexivity. Qed.

Example best_init_infinity :
  best_init (Some "-Infinity"%string) = Finite 0.
Proof. reflexivity. Qed.

Example best_init_overflow :
  best_init (Some "1e400"%string) = Finite 0.
Proof. vm_compute. reflexivity. Qed.

(** ** What [draw] does to the bird and to the spawn accumulator *)

Lemma removeOffscreen_keeps s :
  birdYRef (R (removeOffscreen s)) = birdYRef (R s)
  /\ birdVYRef (R (removeOffscreen s)) = birdVYRef (R s)
  /\ lastSpawnRef (R (removeOffscreen s)) = lastSpawnRef (R s).
Proof.
  unfold removeOffscreen. destruct (prune _ _) as [ps passed].
  proj. repeat split.
Qed.

Lemma spawnPipes_keeps dt rnd s :
  birdYRef (R (spawnPipes dt rnd s)) = birdYRef (R s)
  /\ birdVYRef (R (spawnPipes dt rnd s)) = birdVYRef (R s).
Proof. unfold spawnPipes, spawnPipe. frame_tac. Qed.

Lemma spawnPipes_lastSpawn dt rnd s :
  lastSpawnRef (R (spawnPipes dt rnd s))
  = if Qcleb (spawnEvery cfg) (lastSpawnRef (R s) + dt * Z2Qc 1000)
    then 0
    else lastSpawnRef (R s) + dt * Z2Qc 1000.
Proof.
  unfold spawnPipes, spawnPipe. proj.
  destruct (Qcleb _ _); reflexivity.
Qed.

Lemma draw_bird b dt rnd s :
  birdVYRef (R (draw b dt rnd s))
  = (if running s then birdVYRef (R s) + gravity cfg * dt
     else birdVYRef (R s))
  /\ birdYRef (R (draw b dt rnd s))
     = (if running s
        then birdYRef (R s) + (birdVYRef (R s) + gravity cfg * dt) * dt
        else birdYRef (R s)).
Proof.
  unfold draw. destruct (running s); [|split; reflexivity]. cbv zeta.
  destruct (after_prune_scene b
              (removeOffscreen
                 (spawnPipes dt rnd (pipesMovement dt (birdPhysics dt s)))))
    as (_ & -> & -> & _).
  destruct (removeOffscreen_keeps
              (spawnPipes dt rnd (pipesMovement dt (birdPhysics dt s))))
    as (-> & -> & _).
  destruct (spawnPipes_keeps dt rnd (pipesMovement dt (birdPhysics dt s)))
    as (-> & ->).
  unfold pipesMovement, birdPhysics. proj. split; reflexivity.
Qed.

Lemma draw_lastSpawn b dt rnd s :
  lastSpawnRef (R (draw b dt rnd s))
  = if running s
    then if Qcleb (spawnEvery cfg) (lastSpawnRef (R s) + dt * Z2Qc 1000)
         then 0
         else lastSpawnRef (R s) + dt * Z2Qc 1000
    else lastSpawnRef (R s).
Proof.
  unfold draw. destruct (running s); [|reflexivity]. cbv zeta.
  destruct (after_prune_scene b
              (removeOffscreen
                 (spawnPipes dt rnd (pipesMovement dt (birdPhysics dt s)))))
    as (_ & _ & _ & ->).
  destruct (removeOffscreen_keeps
              (spawnPipes dt rnd (pipesMovement dt (birdPhysics dt s))))
    as (_ & _ & ->).
  rewrite spawnPipes_lastSpawn.
  unfold pipesMovement, birdPhysics. proj. reflexivity.
Qed.

(** ** Invariants of the mounted component *)

Lemma zero_lt_spawnEvery : 0 < spawnEvery cfg.
Proof. apply Qcltb_lt. reflexivity. Qed.

Lemma requestAnimationFrame_inv b s :
  nextRafId (E s) <> 0%nat /\
  (gameOverRef (R s) = true -> gameStartedRef (R s) = true) /\
  (gameOverRef (R s) = true -> pausedRef (R s) = false) /\
  lastSpawnRef (R s) < spawnEvery cfg /\
  head_onscreen (pipesRef (R s)) ->
  Inv (requestAnimationFrame b s).
Proof.
  intros (Hn & H1 & H2 & H3 & H4).
  constructor; unfold requestAnimationFrame; proj; auto.
Qed.

Lemma Inv_requestAnimationFrame b s : Inv s -> Inv (requestAnimationFrame b s).
Proof.
  intros [H1 H2 H3 H4 H5 H6]. apply requestAnimationFrame_inv. auto.
Qed.

Lemma Inv_mount stored : Inv (mount stored).
Proof.
  unfold mount. cbv zeta. apply requestAnimationFrame_inv.
  unfold resetGame. proj.
  split; [discriminate|].
  split; [discriminate|].
  split; [discriminate|].
  split; [exact zero_lt_spawnEvery | exact I].
Qed.

Lemma Inv_resetGame s : Inv s -> Inv (resetGame s).
Proof.
  intros [H1 H2 H3 H4 H5 H6].
  constructor; unfold resetGame; proj; auto; try discriminate.
  - exact zero_lt_spawnEvery.
  - exact I.
Qed.

Lemma Inv_flap s : Inv s -> Inv (flap s).
Proof.
  intros [H1 H2 H3 H4 H5 H6]. unfold flap.
  destruct (gameStartedRef (R s)) eqn:Hs; cbn [negb]; cbv zeta; proj.
  - destruct (gameOverRef (R s)) eqn:Ho; constructor; proj; auto;
      congruence.
  - destruct (gameOverRef (R s)) eqn:Ho.
    + specialize (H1 eq_refl). discriminate.
    + constructor; proj; auto; congruence.
Qed.

Lemma Inv_togglePause b s : Inv s -> Inv (togglePause b s).
Proof.
  intros HI. unfold togglePause.
  destruct (negb (gameStartedRef (R s)) || gameOverRef (R s)) eqn:Hg;
    [exact HI|].
  apply orb_false_iff in Hg. destruct Hg as [_ Ho].
  destruct HI as [H1 H2 H3 H4 H5 H6].
  cbv zeta. proj.
  destruct (negb (negb (pausedRef (R s)))).
  - apply requestAnimationFrame_inv. proj.
    repeat split; auto; congruence.
  - constructor; proj; auto; congruence.
Qed.

Lemma Inv_set_lastTimeRef ts s : Inv s -> Inv (onR (set_lastTimeRef ts) s).
Proof. intros [H1 H2 H3 H4 H5 H6]. constructor; proj; auto. Qed.

Lemma running_true s :
  running s = true ->
  gameStartedRef (R s) = true /\ pausedRef (R s) = false
  /\ gameOverRef (R s) = false.
Proof.
  unfold running. intro H.
  apply andb_true_iff in H. destruct H as [H Ho].
  apply andb_true_iff in H. destruct H as [Hs Hp].
  apply negb_true_iff in Ho. apply negb_true_iff in Hp. auto.
Qed.

Lemma Inv_draw b dt rnd s : Inv s -> Inv (draw b dt rnd s).
Proof.
  intro HI.
  destruct (running s) eqn:Hr; [|rewrite draw_not_running; assumption].
  destruct (running_true s Hr) as (Hs & Hp & Ho).
  destruct (draw_control b dt rnd s)
    as (Hraf & _ & Hst & Hpa & _ & _ & Hnext & _).
  destruct HI as [H1 H2 H3 H4 H5 H6].
  constructor.
  - intros _. congruence.
  - intros _. congruence.
  - congruence.
  - congruence.
  - rewrite draw_lastSpawn, Hr.
    destruct (Qcleb _ _) eqn:Hc.
    + exact zero_lt_spawnEvery.
    + apply Qcleb_gt. exact Hc.
  - rewrite draw_pipes, Hr.
    destruct (prune_drops_prefix
                (map (movePipe dt) (pipesRef (R s)) ++ spawned dt rnd s)
                (passedPipeIndexRef (R s))) as (gone & _ & _ & Hh).
    exact Hh.
Qed.

Lemma Inv_loop b ts rnd s : Inv s -> Inv (loop b ts rnd s).
Proof.
  intro HI. unfold loop.
  destruct (pausedRef (R s)); [exact HI|]. cbv zeta.
  assert (HD : Inv (draw b (deltaTime (lastTimeRef (R s)) ts) rnd
                      (onR (set_lastTimeRef ts) s)))
    by (apply Inv_draw, Inv_set_lastTimeRef, HI).
  destruct (negb (gameOverRef _)); [apply Inv_requestAnimationFrame|];
    exact HD.
Qed.

Lemma Inv_loops ts rnd (q : list Qc) :
  forall s, Inv s -> Inv (fold_left (fun s b => loop b ts rnd s) q s).
Proof.
  induction q as [|b q IH]; intros s HI; cbn [fold_left]; [exact HI|].
  apply IH, Inv_loop, HI.
Qed.

Lemma Inv_handle ev s : Inv s -> Inv (handle ev s).
Proof.
  intro HI. destruct ev; cbn [handle].
  - cbv zeta. destruct (_ && _);
      [apply Inv_requestAnimationFrame|]; apply Inv_flap, HI.
  - apply Inv_togglePause, HI.
  - apply Inv_requestAnimationFrame, Inv_resetGame, HI.
  - unfold handlePointer. cbv zeta. destruct (_ && _);
      [apply Inv_requestAnimationFrame|]; apply Inv_flap, HI.
  - unfold restart. apply Inv_requestAnimationFrame, Inv_resetGame, HI.
  - apply Inv_togglePause, HI.
  - unfold frame. cbv zeta. apply Inv_loops.
    destruct HI as [H1 H2 H3 H4 H5 H6]. constructor; proj; auto.
Qed.

Lemma Inv_run evs : forall s, Inv s -> Inv (run evs s).
Proof.
  unfold run. induction evs as [|ev evs IH]; intros s HI; cbn [fold_left];
    [exact HI|].
  apply IH, Inv_handle, HI.
Qed.

Lemma Inv_reachable stored evs : Inv (run evs (mount stored)).
Proof. apply Inv_run, Inv_mount. Qed.

(** ** Gap bounds of spawned pipes (C4) *)

Ltac to_Q :=
  unfold Qcle, Qclt, Z2Qc, Qcdiv, Qcminus, Qcplus, Qcmult, Qcopp, Q2Qc in *;
  cbn [this] in *;
  repeat rewrite Qred_correct in *;
  unfold inject_Z in *.

Lemma spawnPipe_gap_ok rnd s :
  0 <= rnd -> rnd < 1 ->
  exists p,
    pipesRef (R (spawnPipe (h cfg) rnd s)) = pipesRef (R s) ++ [p]
    /\ pipe_x p = w cfg + Z2Qc 40
    /\ gap_ok p.
Proof.
  intros H0 H1. unfold spawnPipe. cbv zeta. proj.
  eexists. split; [reflexivity|]. split; [reflexivity|].
  unfold gap_ok. cbn [pipe_topH h groundH pipeGap cfg].
  split; to_Q; lra.
Qed.

Lemma spawned_gap_ok dt rnd s :
  0 <= rnd -> rnd < 1 -> Forall gap_ok (spawned dt rnd s).
Proof.
  intros H0 H1. unfold spawned.
  destruct (Qcleb _ _); constructor; [|constructor].
  unfold gap_ok. cbn [pipe_topH h groundH pipeGap cfg].
  split; to_Q; lra.
Qed.

Lemma movePipe_gap_ok dt ps :
  Forall gap_ok ps -> Forall gap_ok (map (movePipe dt) ps).
Proof.
  intro H. apply Forall_map. revert H. apply Forall_impl.
  intros p Hp. exact Hp.
Qed.

Lemma prune_Forall (P : pipe -> Prop) ps passed :
  Forall P ps -> Forall P (fst (prune ps passed)).
Proof.
  intro H.
  destruct (prune_drops_prefix ps passed) as (gone & Heq & _).
  rewrite Heq in H. apply Forall_app in H. apply H.
Qed.

Lemma gaps_loop b ts rnd s :
  0 <= rnd -> rnd < 1 ->
  Forall gap_ok (pipesRef (R s)) ->
  Forall gap_ok (pipesRef (R (loop b ts rnd s))).
Proof.
  intros H0 H1 H. rewrite loop_pipes.
  destruct (running s); [|exact H]. cbv zeta.
  apply prune_Forall, Forall_app. split.
  - apply movePipe_gap_ok, H.
  - apply spawned_gap_ok; assumption.
Qed.

Lemma gaps_loops ts rnd (q : list Qc) :
  0 <= rnd -> rnd < 1 ->
  forall s,
    Forall gap_ok (pipesRef (R s)) ->
    Forall gap_ok (pipesRef (R (fold_left (fun s b => loop b ts rnd s) q s))).
Proof.
  intros H0 H1.
  induction q as [|b q IH]; intros s H; cbn [fold_left]; [exact H|].
  apply IH, gaps_loop; assumption.
Qed.

Lemma flap_pipes s : pipesRef (R (flap s)) = pipesRef (R s).
Proof. unfold flap. frame_tac. Qed.

Lemma togglePause_pipes b s : pipesRef (R (togglePause b s)) = pipesRef (R s).
Proof. unfold togglePause, requestAnimationFrame. frame_tac. Qed.

Lemma gaps_handle ev s :
  valid_event ev ->
  Forall gap_ok (pipesRef (R s)) ->
  Forall gap_ok (pipesRef (R (handle ev s))).
Proof.
  intros Hv H. destruct ev; cbn [handle].
  - cbv zeta. destruct (_ && _); unfold requestAnimationFrame; proj;
      rewrite flap_pipes; exact H.
  - rewrite togglePause_pipes. exact H.
  - unfold requestAnimationFrame, resetGame. proj. constructor.
  - unfold handlePointer. cbv zeta.
    destruct (_ && _); unfold requestAnimationFrame; proj;
      rewrite flap_pipes; exact H.
  - unfold restart, requestAnimationFrame, resetGame. proj. constructor.
  - rewrite togglePause_pipes. exact H.
  - destruct Hv as [H0 H1]. unfold frame. cbv zeta.
    apply gaps_loops; assumption.
Qed.

Lemma gaps_run evs :
  Forall valid_event evs ->
  forall s,
    Forall gap_ok (pipesRef (R s)) ->
    Forall gap_ok (pipesRef (R (run evs s))).
Proof.
  unfold run. induction 1 as [|ev evs Hev _ IH]; intros s H; cbn [fold_left];
    [exact H|].
  apply IH, gaps_handle; assumption.
Qed.

(** C4.  For every random draw in [[0, 1)], the pipe that [spawnPipe]
    appends for the field height [h] sits at [w + 40] and has
    [topH >= 60] and [topH + pipeGap <= h - groundH - 60]; consequently
    every pipe present at any point of any session (whose frames carry
    random draws in [[0, 1)]) satisfies both bounds. *)
Theorem spawned_pipes_keep_margins :
  (forall rnd s,
      0 <= rnd -> rnd < 1 ->
      exists p,
        pipesRef (R (spawnPipe (h cfg) rnd s)) = pipesRef (R s) ++ [p]
        /\ pipe_x p = w cfg + Z2Qc 40
        /\ Z2Qc 60 <= pipe_topH p
        /\ pipe_topH p + pipeGap cfg <= h cfg - groundH cfg - Z2Qc 60)
  /\ (forall stored evs,
         Forall valid_event evs ->
         Forall gap_ok (pipesRef (R (run evs (mount stored))))).
Proof.
  split.
  - intros rnd s H0 H1.
    destruct (spawnPipe_gap_ok rnd s H0 H1) as (p & Hp & Hx & Hlo & Hhi).
    exists p. auto.
  - intros stored evs Hv. apply gaps_run; [exact Hv|].
    unfold mount, requestAnimationFrame, resetGame. proj. constructor.
Qed.

Lemma spawned_pipes_keep_margins_witness :
  (exists p,
      pipesRef (R (spawnPipe (h cfg) (Q2Qc (1 # 2)) (mount None)))
      = pipesRef (R (mount None)) ++ [p]
      /\ pipe_x p = w cfg + Z2Qc 40
      /\ Z2Qc 60 <= pipe_topH p
      /\ pipe_topH p + pipeGap cfg <= h cfg - groundH cfg - Z2Qc 60)
  /\ Forall gap_ok
       (pipesRef
          (R (run [KeySpace; Frame (Z2Qc 1000) (Q2Qc (1 # 2));
                   Frame (Z2Qc 1033) (Q2Qc (1 # 2))]
                  (mount None)))).
Proof.
  split.
  - apply (proj1 spawned_pipes_keep_margins).
    + apply Qcleb_le. reflexivity.
    + apply Qcltb_lt. reflexivity.
  - apply (proj2 spawned_pipes_keep_margins).
    repeat constructor; try (apply Qcleb_le; reflexivity);
      apply Qcltb_lt; reflexivity.
Defined.

(** ** The over state (C6) *)






(** ** Evaluating concrete sessions *)


(** ** The first tick after a reset or a resume (C10) *)

Lemma deltaTime_zero ts : deltaTime 0 ts = 0.
Proof. reflexivity. Qed.

Lemma deltaTime_same ts : deltaTime ts ts = 0.
Proof.
  unfold deltaTime. destruct (negb (Qceqb ts 0)); [|reflexivity].
  replace ((ts - ts) / Z2Qc 1000) with (Q2Qc 0) by (unfold Qcdiv; ring).
  reflexivity.
Qed.

Lemma movePipe_zero p : movePipe 0 p = p.
Proof.
  destruct p as [x t]. unfold movePipe. cbn [pipe_x pipe_topH].
  f_equal. ring.
Qed.

Lemma pipesMovement_zero ps : map (movePipe 0) ps = ps.
Proof.
  induction ps as [|p ps IH]; cbn [map]; [reflexivity|].
  rewrite movePipe_zero, IH. reflexivity.
Qed.

Lemma spawned_zero rnd s :
  lastSpawnRef (R s) < spawnEvery cfg -> spawned 0 rnd s = [].
Proof.
  intro H. unfold spawned.
  replace (lastSpawnRef (R s) + 0 * Z2Qc 1000) with (lastSpawnRef (R s))
    by ring.
  apply Qcleb_gt in H. rewrite H. reflexivity.
Qed.

Lemma draw_zero b rnd s : Inv s -> scene (draw b 0 rnd s) = scene s.
Proof.
  intros [_ _ _ _ H5 H6]. unfold scene.
  destruct (draw_bird b 0 rnd s) as (-> & ->).
  rewrite draw_pipes.
  destruct (running s); [|reflexivity].
  rewrite pipesMovement_zero, spawned_zero, app_nil_r by exact H5.
  rewrite prune_onscreen_id by exact H6. cbn [fst].
  repeat f_equal; ring.
Qed.

Lemma loop_zero b ts rnd s :
  Inv s ->
  lastTimeRef (R s) = 0 \/ lastTimeRef (R s) = ts ->
  scene (loop b ts rnd s) = scene s
  /\ (lastTimeRef (R (loop b ts rnd s)) = 0
      \/ lastTimeRef (R (loop b ts rnd s)) = ts).
Proof.
  intros HI Hl. unfold loop.
  destruct (pausedRef (R s)); [split; [reflexivity | exact Hl]|].
  cbv zeta.
  assert (Hd : deltaTime (lastTimeRef (R s)) ts = 0)
    by (destruct Hl as [-> | ->];
        [apply deltaTime_zero | apply deltaTime_same]).
  rewrite Hd.
  pose proof (draw_zero b rnd (onR (set_lastTimeRef ts) s)
                (Inv_set_lastTimeRef ts s HI)) as Hsc.
  destruct (draw_control b 0 rnd (onR (set_lastTimeRef ts) s))
    as (_ & Hlt & _).
  proj.
  destruct (negb (gameOverRef _)); unfold requestAnimationFrame, scene in *;
    proj; (split; [exact Hsc | right; exact Hlt]).
Qed.

Lemma loops_zero ts rnd (q : list Qc) :
  forall s,
    Inv s ->
    lastTimeRef (R s) = 0 \/ lastTimeRef (R s) = ts ->
    scene (fold_left (fun s b => loop b ts rnd s) q s) = scene s.
Proof.
  induction q as [|b q IH]; intros s HI Hl; cbn [fold_left]; [reflexivity|].
  destruct (loop_zero b ts rnd s HI Hl) as [Hsc Hl'].
  rewrite IH; [exact Hsc | apply Inv_loop; exact HI | exact Hl'].
Qed.

Lemma togglePause_resume_lastTime b s :
  gameStartedRef (R s) = true -> gameOverRef (R s) = false ->
  pausedRef (R s) = true ->
  lastTimeRef (R (togglePause b s)) = 0
  /\ pausedRef (R (togglePause b s)) = false.
Proof.
  intros Hs Ho Hp. unfold togglePause, requestAnimationFrame.
  rewrite Hs, Ho. cbn [negb orb]. cbv zeta. proj. rewrite Hp.
  cbn [negb]. proj. split; reflexivity.
Qed.

(** C10.  [resetGame] and a resume both store 0 as the time reference.
    Whenever the time reference is 0, the delta time computed by [loop]
    is 0 for every timestamp; and in every state the mounted component
    can reach with a zero time reference, the next frame, whatever its
    timestamp and however many callbacks it runs, leaves the bird's
    position and velocity and the whole pipe sequence (so every pipe's
    horizontal position) unchanged. *)
Theorem first_tick_is_a_zero_dt_frame :
  (forall s, lastTimeRef (R (resetGame s)) = 0)
  /\ (forall b s,
         gameStartedRef (R s) = true -> gameOverRef (R s) = false ->
         pausedRef (R s) = true ->
         lastTimeRef (R (togglePause b s)) = 0)
  /\ (forall ts, deltaTime 0 ts = 0)
  /\ (forall stored evs ts rnd,
         let s := run evs (mount stored) in
         lastTimeRef (R s) = 0 ->
         let s' := handle (Frame ts rnd) s in
         birdYRef (R s') = birdYRef (R s)
         /\ birdVYRef (R s') = birdVYRef (R s)
         /\ pipesRef (R s') = pipesRef (R s)).
Proof.
  split; [intro s; reflexivity|].
  split; [intros b s Hs Ho Hp;
          apply (togglePause_resume_lastTime b s Hs Ho Hp)|].
  split; [exact deltaTime_zero|].
  intros stored evs ts rnd s Hl s'.
  assert (Hsc : scene s' = scene s).
  { subst s'. cbn [handle]. unfold frame. cbv zeta.
    rewrite loops_zero.
    - reflexivity.
    - destruct (Inv_reachable stored evs) as [H1 H2 H3 H4 H5 H6].
      constructor; proj; assumption.
    - left. proj. exact Hl. }
  unfold scene in Hsc. inversion Hsc. repeat split.
Qed.

Lemma first_tick_is_a_zero_dt_frame_witness :
  let s := run resumed (mount None) in
  let s' := handle (Frame (Z2Qc 99999) (Q2Qc (1 # 2))) s in
  birdYRef (R s') = birdYRef (R s)
  /\ birdVYRef (R s') = birdVYRef (R s)
  /\ pipesRef (R s') = pipesRef (R s).
Proof.
  apply (proj2 (proj2 (proj2 first_tick_is_a_zero_dt_frame))
           None resumed (Z2Qc 99999) (Q2Qc (1 # 2))).
  vm_compute. reflexivity.
Defined.

(** ** Scoring (C1) *)

Lemma trailing_edge_before_leading_edge : birdX cfg - birdR cfg < birdX cfg.
Proof. apply Qcltb_lt. reflexivity. Qed.

(** Once the head pipe's right edge is behind the bird's trailing edge,
    the second test of the scoring block clears the flag in the same
    tick in which the first test set it.  So every tick that finds the
    flag clear counts the head pipe and leaves the flag clear again:
    the pipe is counted at every tick until it is pruned. *)
Lemma scoring_counts_again (s : world) (first : pipe) (rest : list pipe) :
  pipesRef (R s) = first :: rest ->
  pipe_x first + pipeW cfg < birdX cfg - birdR cfg ->
  passedPipeIndexRef (R s) = 0%Z ->
  scoreRef (R (scoring s)) = (scoreRef (R s) + 1)%Z
  /\ passedPipeIndexRef (R (scoring s)) = 0%Z
  /\ pipesRef (R (scoring s)) = first :: rest.
Proof.
  intros Hps Hx Hflag. unfold scoring. rewrite Hps, Hflag.
  assert (Hfront : Qcltb (pipe_x first + pipeW cfg) (birdX cfg) = true).
  { apply Qcltb_lt. eapply Qclt_trans; [exact Hx|].
    exact trailing_edge_before_leading_edge. }
  apply Qcltb_lt in Hx. rewrite Hfront, Hx.
  cbn [Z.eqb andb]. cbv zeta. proj. auto.
Qed.

(** Three frames 16 ms apart from [behind_the_bird] give three points
    for its one pipe, which is still in the sequence afterwards. *)
Example three_ticks_three_points :
  let s := run [Frame (Z2Qc 1016) 0; Frame (Z2Qc 1032) 0;
                Frame (Z2Qc 1048) 0] behind_the_bird in
  scoreRef (R s) = 3%Z
  /\ List.length (pipesRef (R s)) = 1%nat
  /\ gameOverRef (R s) = false.
Proof. cbv zeta. conjs; vm_compute; reflexivity. Qed.

(** C1, on the code.  In the session [play hover], the first pipe (the
    only one to reach the bird) is counted at frame 254, when its right
    edge passes the bird's leading edge; the score stays at 1 until the
    right edge has passed the bird's trailing edge, then grows by 1 at
    every frame from frame 261 on, and stands at 32 at frame 291.
    Frame 292 prunes the pipe (three pipes before it, two after); the
    game is not over then, the displayed score is 32 too, and no other
    pipe has reached the bird. *)
Theorem first_pipe_is_counted_32_times :
  map score_after [253; 254; 255; 260; 261; 262; 263; 290; 291; 292]%nat
  = [0; 1; 1; 1; 2; 3; 4; 31; 32; 32]%Z
  /\ map pipes_after [291; 292]%nat = [3; 2]%nat
  /\ let s := run (play hover 292 0 (Z2Qc 1000)) (mount None) in
     score (U s) = 32%Z
     /\ gameOverRef (R s) = false
     /\ Forall (fun p => birdX cfg < pipe_x p + pipeW cfg) (pipesRef (R s)).
Proof.
  split; [vm_compute; reflexivity|].
  split; [vm_compute; reflexivity|].
  cbv zeta. split; [vm_compute; reflexivity|].
  split; [vm_compute; reflexivity|].
  apply Forall_forall. intros p Hp. apply Qcltb_lt.
  revert p Hp. apply Forall_forall.
  vm_compute. repeat constructor.
Qed.

(** ** Best score (C2) *)

(** When the [loop] that runs closes over the current [best], the over
    transition leaves [best] at the maximum of its old value and the
    score. *)
Lemma updateBest_current (s : world) :
  gameOverRef (R s) = true ->
  best (U (updateBest (best (U s)) s))
  = Math_max (best (U s)) (Z2Qc (scoreRef (R s))).
Proof.
  intro Ho. unfold updateBest, Math_max. rewrite Ho.
  destruct (Qcltb _ _); reflexivity.
Qed.

(** In general the comparison is made with the [best] of the closure,
    and a score above that value overwrites the current [best] and the
    stored one, whatever they are. *)
Lemma updateBest_closure (b : Qc) (s : world) :
  gameOverRef (R s) = true ->
  b < Z2Qc (scoreRef (R s)) ->
  best (U (updateBest b s)) = Z2Qc (scoreRef (R s))
  /\ localStorage (E (updateBest b s)) = Some (String_ (scoreRef (R s))).
Proof.
  intros Ho Hb. unfold updateBest. rewrite Ho.
  apply Qcltb_lt in Hb. rewrite Hb. cbv zeta. proj. split; reflexivity.
Qed.

(** C2, on the code.  Nothing is stored at mount, so the first render
    has [best = 0].  The first run ends with score 32: [best] and the
    stored value become 32.  After the R key the frames are run by the
    [loop] of the first render again, which still compares with 0: the
    second run ends with score 23, and [best] and the stored value drop
    to 23. *)
Theorem restart_by_key_lowers_best :
  let s1 := run first_run (mount None) in
  let s2 := run second_run s1 in
  (gameOverRef (R s1) = true
   /\ scoreRef (R s1) = 32%Z
   /\ best (U s1) = Z2Qc 32
   /\ localStorage (E s1) = Some "32"%string)
  /\ (gameOverRef (R s2) = true
      /\ scoreRef (R s2) = 23%Z
      /\ best (U s2) = Z2Qc 23
      /\ localStorage (E s2) = Some "23"%string)
  /\ best (U s2) < best (U s1).
Proof.
  cbv zeta.
  split; [conjs; vm_compute; reflexivity|].
  split; [conjs; vm_compute; reflexivity|].
  apply Qcltb_lt. vm_compute. reflexivity.
Qed.

(** The same two runs with the Restart button in place of the R key:
    the second run is driven by a [loop] that sees [best = 32], and the
    best score stays. *)
Example restart_by_button_keeps_best :
  let s2 := run (ClickRestart :: tl second_run) (run first_run (mount None)) in
  gameOverRef (R s2) = true
  /\ scoreRef (R s2) = 23%Z
  /\ best (U s2) = Z2Qc 32
  /\ localStorage (E s2) = Some "32"%string.
Proof. cbv zeta. conjs; vm_compute; reflexivity. Qed.

(** * Further properties of the code *)

Ltac cmp_cases :=
  repeat match goal with
  | |- context [Qcltb ?a ?b] =>
      let C := fresh "C" in
      destruct (Qcltb a b) eqn:C;
      [apply Qcltb_lt in C | apply Qcltb_ge in C]
  end.

(** ** Collision geometry ([circleRect], [collides]) *)

Lemma clamp_inside (lo hi c : Qc) :
  lo <= hi ->
  lo <= Math_max lo (Math_min c hi) /\ Math_max lo (Math_min c hi) <= hi.
Proof.
  intro H. unfold Math_min. cmp_cases.
  all: unfold Math_max; cmp_cases; to_Q; lra.
Qed.

Lemma clamp_nearest (lo hi c p : Qc) :
  lo <= p -> p <= hi ->
  (c - Math_max lo (Math_min c hi)) * (c - Math_max lo (Math_min c hi))
  <= (c - p) * (c - p).
Proof.
  intros H1 H2. unfold Math_min. cmp_cases.
  all: unfold Math_max; cmp_cases; to_Q.
  all: try nra.
  destruct (Qlt_le_dec c p); nra.
Qed.

Lemma circleRect_touches (cx cy cr rx ry rw rh : Qc) :
  0 <= rw -> 0 <= rh ->
  (circleRect cx cy cr rx ry rw rh = true
   <-> exists px py,
        in_rect rx ry rw rh px py /\ dist2 cx cy px py <= cr * cr).
Proof.
  intros Hw Hh. unfold circleRect, dist2. cbv zeta. rewrite Qcleb_le.
  assert (Hx : rx <= rx + rw) by (to_Q; lra).
  assert (Hy : ry <= ry + rh) by (to_Q; lra).
  split.
  - intro H.
    exists (Math_max rx (Math_min cx (rx + rw))),
           (Math_max ry (Math_min cy (ry + rh))).
    split; [|exact H].
    destruct (clamp_inside rx (rx + rw) cx Hx).
    destruct (clamp_inside ry (ry + rh) cy Hy).
    unfold in_rect. auto.
  - intros (px & py & (H1 & H2 & H3 & H4) & Hd).
    pose proof (clamp_nearest rx (rx + rw) cx px H1 H2) as Nx.
    pose proof (clamp_nearest ry (ry + rh) cy py H3 H4) as Ny.
    eapply Qcle_trans; [|exact Hd].
    apply Qcplus_le_compat; assumption.
Qed.



Lemma Qsquare_nonneg (a : Q) : (0 <= a * a)%Q.
Proof. destruct (Qlt_le_dec a 0); nra. Qed.







Lemma pipeW_nonneg : 0 <= pipeW cfg.
Proof. apply Qcleb_le. reflexivity. Qed.

Lemma pipe_fits_bottom p :
  pipe_fits p -> 0 <= h cfg - groundH cfg - (pipe_topH p + pipeGap cfg).
Proof. intros [H1 H2]. to_Q. lra. Qed.

Lemma gap_ok_fits p : gap_ok p -> pipe_fits p.
Proof.
  unfold gap_ok, pipe_fits. cbn [h groundH pipeGap cfg].
  intros [H1 H2]. split; to_Q; lra.
Qed.



(** X4.  [collides] reports a hit whenever the centre of the circle is
    inside the top or the bottom pipe, whatever the radius. *)
Theorem collides_true_inside (bx by_ r : Qc) (p : pipe) :
  pipe_fits p ->
  pipe_x p <= bx -> bx <= pipe_x p + pipeW cfg ->
  (0 <= by_ /\ by_ <= pipe_topH p)
  \/ (pipe_topH p + pipeGap cfg <= by_ /\ by_ <= h cfg - groundH cfg) ->
  collides bx by_ r p = true.
Proof.
  intros Hf Hx1 Hx2 Hy. pose proof (pipe_fits_bottom p Hf) as Hb.
  destruct Hf as [Ht _]. pose proof pipeW_nonneg as Hw.
  unfold collides. apply orb_true_iff.
  destruct Hy as [[Hy1 Hy2] | [Hy1 Hy2]]; [left | right];
    (apply circleRect_touches; [assumption .. |]);
    exists bx, by_; (split; [unfold in_rect; repeat split; try assumption |]).
  - replace (0 + pipe_topH p) with (pipe_topH p) by ring. exact Hy2.
  - unfold dist2. to_Q. pose proof (Qsquare_nonneg r). lra.
  - to_Q. lra.
  - unfold dist2. to_Q. pose proof (Qsquare_nonneg r). lra.
Qed.

Lemma collides_true_inside_witness :
  collides (birdX cfg) (Z2Qc 400) (birdR cfg)
           {| pipe_x := Z2Qc 60; pipe_topH := Z2Qc 200 |}
  = true.
Proof.
  apply (collides_true_inside (birdX cfg) (Z2Qc 400) (birdR cfg)
           {| pipe_x := Z2Qc 60; pipe_topH := Z2Qc 200 |}).
  - split; apply Qcleb_le; reflexivity.
  - apply Qcleb_le. reflexivity.
  - apply Qcleb_le. reflexivity.
  - right. split; apply Qcleb_le; reflexivity.
Defined.

(** ** Delta time and tilt *)

Lemma inv_1000 : / Z2Qc 1000 = Q2Qc (1 # 1000).
Proof. apply Qc_is_canon. reflexivity. Qed.

Lemma inv_500 : / Z2Qc 500 = Q2Qc (1 # 500).
Proof. apply Qc_is_canon. reflexivity. Qed.

Ltac to_Qd :=
  unfold Qcdiv in *; rewrite ?inv_1000, ?inv_500 in *; to_Q.

(** X5.  The delta time never exceeds the cap of 0.033 s, whatever the
    two timestamps; it is not negative when the timestamp does not
    precede the stored one; and when the stored timestamp is non-zero
    and at most 33 ms old, it is the elapsed time in seconds. *)
Theorem deltaTime_bounds (last ts : Qc) :
  deltaTime last ts <= Q2Qc (33 # 1000)
  /\ (last <= ts -> 0 <= deltaTime last ts)
  /\ (last <> 0 -> 0 <= ts - last -> ts - last <= Z2Qc 33 ->
      deltaTime last ts = (ts - last) / Z2Qc 1000).
Proof.
  unfold deltaTime.
  destruct (Qceqb last 0) eqn:E; cbn [negb].
  - apply Qceqb_eq in E. subst last.
    split; [apply Qcleb_le; reflexivity|].
    split; [intros _; apply Qcleb_le; reflexivity|].
    intro H; contradiction H; reflexivity.
  - unfold Math_min. cmp_cases.
    + split; [|split].
      * to_Qd. lra.
      * intro H. to_Qd. lra.
      * intros _ H0 H1. reflexivity.
    + split; [|split].
      * apply Qcleb_le; reflexivity.
      * intros _. apply Qcleb_le; reflexivity.
      * intros _ H0 H1. apply Qcle_antisym; [exact C|]. to_Qd. lra.
Qed.

Lemma deltaTime_bounds_witness :
  0 <= deltaTime (Z2Qc 1000) (Z2Qc 1016)
  /\ deltaTime (Z2Qc 1000) (Z2Qc 1016)
     = (Z2Qc 1016 - Z2Qc 1000) / Z2Qc 1000.
Proof.
  destruct (deltaTime_bounds (Z2Qc 1000) (Z2Qc 1016)) as (_ & H1 & H2).
  split.
  - apply H1. apply Qcleb_le. reflexivity.
  - apply H2.
    + Qc_neq.
    + apply Qcleb_le. reflexivity.
    + apply Qcleb_le. reflexivity.
Defined.

(** X6.  The tilt handed to the renderer always lies in [[-0.6, 0.6]],
    and equals [velocity / 500] whenever the velocity is within
    [[-300, 300]]. *)
Theorem tilt_bounds (s : world) :
  Q2Qc (-6 # 10) <= tilt s
  /\ tilt s <= Q2Qc (6 # 10)
  /\ (Z2Qc (-300) <= birdVYRef (R s) -> birdVYRef (R s) <= Z2Qc 300 ->
      tilt s = birdVYRef (R s) / Z2Qc 500).
Proof.
  unfold tilt, Math_min. cmp_cases.
  all: unfold Math_max; cmp_cases.
  all: repeat split; try (apply Qcleb_le; reflexivity).
  all: try (intros Hlo Hhi; apply Qcle_antisym).
  all: to_Qd; lra.
Qed.

Lemma tilt_bounds_witness :
  tilt (mount None) = birdVYRef (R (mount None)) / Z2Qc 500.
Proof.
  apply (proj2 (proj2 (tilt_bounds (mount None))));
    apply Qcleb_le; reflexivity.
Defined.

(** ** Flap and pause *)

(** X7.  On a game that is not over, a flap sets the velocity to the
    configured jump impulse whatever it was, marks the game started,
    clears the paused flag and hides the help only if the game had not
    started yet, and leaves position, pipes, score, spawn accumulator,
    passed flag and best score as they were. *)
Theorem flap_effect (s : world) :
  gameOverRef (R s) = false ->
  let s' := flap s in
  birdVYRef (R s') = jump cfg
  /\ gameStartedRef (R s') = true
  /\ pausedRef (R s') = (gameStartedRef (R s) && pausedRef (R s))
  /\ showHelp (U s') = (gameStartedRef (R s) && showHelp (U s))
  /\ simulation s'
     = (birdYRef (R s), jump cfg, pipesRef (R s), scoreRef (R s),
        score (U s), lastSpawnRef (R s), passedPipeIndexRef (R s),
        false, best (U s)).
Proof.
  intro Ho. unfold flap, simulation.
  destruct s as [r u e]. destruct r as [raf ls lt st pa ov y vy ps sc pp].
  proj. subst ov. destruct st; proj; repeat split.
Qed.

Lemma flap_effect_witness :
  birdVYRef (R (flap (run resumed (mount None)))) = jump cfg
  /\ gameStartedRef (R (flap (run resumed (mount None)))) = true.
Proof.
  assert (H : gameOverRef (R (run resumed (mount None))) = false)
    by (vm_compute; reflexivity).
  destruct (flap_effect (run resumed (mount None)) H) as (Hv & Hs & _).
  split; [exact Hv | exact Hs].
Defined.

(** X8.  A pause toggle does nothing at all before the first flap and
    after game over.  In a started game that is not over it flips the
    paused flag and touches nothing of the simulation; when it resumes,
    it also zeroes the time reference and registers exactly one frame
    callback, and when it pauses it registers none. *)
Theorem togglePause_effect (b : Qc) (s : world) :
  (gameStartedRef (R s) = false \/ gameOverRef (R s) = true ->
   togglePause b s = s)
  /\ (gameStartedRef (R s) = true -> gameOverRef (R s) = false ->
      let s' := togglePause b s in
      pausedRef (R s') = negb (pausedRef (R s))
      /\ simulation s' = simulation s
      /\ lastTimeRef (R s')
         = (if pausedRef (R s) then 0 else lastTimeRef (R s))
      /\ rafQueue (E s')
         = (if pausedRef (R s) then rafQueue (E s) ++ [b]
            else rafQueue (E s))).
Proof.
  split.
  - intros [H | H]; unfold togglePause; rewrite H; [|rewrite orb_true_r];
      reflexivity.
  - intros Hs Ho. unfold togglePause, requestAnimationFrame, simulation.
    destruct s as [r u e]. destruct r as [raf ls lt st pa ov y vy ps sc pp].
    proj. subst st ov. cbn [negb orb]. proj.
    destruct pa; cbn [negb]; proj; repeat split.
Qed.

Lemma togglePause_effect_witness :
  togglePause 0 (mount None) = mount None
  /\ pausedRef (R (togglePause 0 (flap (mount None)))) = true.
Proof.
  split.
  - apply (proj1 (togglePause_effect 0 (mount None))). left. reflexivity.
  - apply (proj2 (togglePause_effect 0 (flap (mount None))));
      reflexivity.
Defined.

(** ** Score, flags and collisions along a session *)

Lemma before_scoring_progress dt rnd s :
  let t :=
    removeOffscreen (spawnPipes dt rnd (pipesMovement dt (birdPhysics dt s)))
  in
  same_progress s t
  /\ passedPipeIndexRef (R t)
     = snd (prune (map (movePipe dt) (pipesRef (R s)) ++ spawned dt rnd s)
                  (passedPipeIndexRef (R s))).
Proof.
  cbv zeta. unfold removeOffscreen.
  rewrite spawnPipes_pipes.
  replace (passedPipeIndexRef
             (R (spawnPipes dt rnd (pipesMovement dt (birdPhysics dt s)))))
    with (passedPipeIndexRef (R s))
    by (unfold spawnPipes, spawnPipe, pipesMovement, birdPhysics; frame_tac).
  replace (pipesRef (R (pipesMovement dt (birdPhysics dt s))))
    with (map (movePipe dt) (pipesRef (R s))) by reflexivity.
  replace (spawned dt rnd (pipesMovement dt (birdPhysics dt s)))
    with (spawned dt rnd s) by reflexivity.
  destruct (prune _ _) as [ps passed].
  unfold same_progress, spawnPipes, spawnPipe, pipesMovement, birdPhysics.
  frame_tac.
Qed.

Lemma prune_passed_bit ps :
  forall passed,
    passed = 0%Z \/ passed = 1%Z ->
    snd (prune ps passed) = 0%Z \/ snd (prune ps passed) = 1%Z.
Proof.
  induction ps as [|p ps IH]; intros passed H; cbn [prune]; [exact H|].
  destruct (Qcltb _ _); [|exact H].
  apply IH. left. destruct H as [-> | ->]; reflexivity.
Qed.

Lemma scoring_progress s :
  (scoreRef (R (scoring s)) = scoreRef (R s)
   \/ scoreRef (R (scoring s)) = (scoreRef (R s) + 1)%Z)
  /\ (score (U s) = scoreRef (R s) ->
      score (U (scoring s)) = scoreRef (R (scoring s)))
  /\ (passedPipeIndexRef (R s) = 0%Z \/ passedPipeIndexRef (R s) = 1%Z ->
      passedPipeIndexRef (R (scoring s)) = 0%Z
      \/ passedPipeIndexRef (R (scoring s)) = 1%Z)
  /\ gameOverRef (R (scoring s)) = gameOverRef (R s)
  /\ best (U (scoring s)) = best (U s)
  /\ localStorage (E (scoring s)) = localStorage (E s).
Proof.
  unfold scoring. proj. repeat (split_if; proj); repeat split; auto.
Qed.

Lemma collisions_progress s :
  let t := collidePipes (collideGround s) in
  scoreRef (R t) = scoreRef (R s)
  /\ score (U t) = score (U s)
  /\ passedPipeIndexRef (R t) = passedPipeIndexRef (R s)
  /\ best (U t) = best (U s)
  /\ localStorage (E t) = localStorage (E s)
  /\ birdYRef (R t) = birdYRef (R s)
  /\ pipesRef (R t) = pipesRef (R s)
  /\ gameOverRef (R t)
     = gameOverRef (R s) || hits_bounds (birdYRef (R s))
       || hits_pipe (birdYRef (R s)) (pipesRef (R s)).
Proof.
  cbv zeta.
  unfold collidePipes, collideGround, hits_bounds, hits_pipe.
  destruct s as [r u e]. destruct r as [raf ls lt st pa ov y vy ps sc pp].
  proj.
  destruct (Qcleb (h cfg - groundH cfg) (y + birdR cfg)
            || Qcleb (y - birdR cfg) 0); proj;
    destruct (existsb _ ps); proj;
    destruct ov; proj; repeat split; reflexivity.
Qed.

Lemma updateBest_refs b s : R (updateBest b s) = R s.
Proof. unfold updateBest. repeat (split_if; proj); reflexivity. Qed.

Lemma updateBest_score b s : score (U (updateBest b s)) = score (U s).
Proof. unfold updateBest. repeat (split_if; proj); reflexivity. Qed.

(** The state that [draw] hands to "Update best". *)
Lemma draw_running b dt rnd s :
  running s = true ->
  draw b dt rnd s
  = updateBest b
      (collidePipes
         (collideGround
            (scoring
               (removeOffscreen
                  (spawnPipes dt rnd
                     (pipesMovement dt (birdPhysics dt s))))))).
Proof. intro Hr. unfold draw. rewrite Hr. reflexivity. Qed.

Lemma draw_progress b dt rnd s :
  running s = true ->
  let s' := draw b dt rnd s in
  (scoreRef (R s') = scoreRef (R s)
   \/ scoreRef (R s') = (scoreRef (R s) + 1)%Z)
  /\ (score (U s) = scoreRef (R s) -> score (U s') = scoreRef (R s'))
  /\ (passedPipeIndexRef (R s) = 0%Z \/ passedPipeIndexRef (R s) = 1%Z ->
      passedPipeIndexRef (R s') = 0%Z \/ passedPipeIndexRef (R s') = 1%Z)
  /\ gameOverRef (R s')
     = hits_bounds (birdYRef (R s'))
       || hits_pipe (birdYRef (R s')) (pipesRef (R s')).
Proof.
  intro Hr. destruct (running_true s Hr) as (_ & _ & Ho).
  cbv zeta. rewrite draw_running by exact Hr.
  set (t0 := removeOffscreen
               (spawnPipes dt rnd (pipesMovement dt (birdPhysics dt s)))).
  destruct (before_scoring_progress dt rnd s)
    as ((Hsc & Hsh & Hov & _) & Hpa).
  fold t0 in Hsc, Hsh, Hov, Hpa.
  destruct (scoring_progress t0) as (Hs1 & Hs2 & Hs3 & Hs4 & _).
  destruct (collisions_progress (scoring t0))
    as (Hc1 & Hc2 & Hc3 & _ & _ & Hc6 & Hc7 & Hc8).
  cbv zeta in Hc1, Hc2, Hc3, Hc6, Hc7, Hc8.
  rewrite updateBest_refs, updateBest_score.
  rewrite Hc1, Hc2, Hc3, Hc6, Hc7, Hc8, Hs4, Hov, Ho.
  rewrite Hsc in Hs1. rewrite Hsc, Hsh in Hs2.
  split; [exact Hs1|]. split; [exact Hs2|].
  split; [|reflexivity].
  intro H. apply Hs3. rewrite Hpa. apply prune_passed_bit. exact H.
Qed.

(** X9.  After the update of a tick of a run in progress, the over flag
    is set exactly when the bird, at its new height, reaches the ground
    line or the ceiling or touches one of the pipes that are left after
    moving, spawning and pruning. *)
Theorem draw_sets_over_iff_hit (b dt rnd : Qc) (s : world) :
  running s = true ->
  let s' := draw b dt rnd s in
  gameOverRef (R s')
  = (Qcleb (h cfg - groundH cfg) (birdYRef (R s') + birdR cfg)
     || Qcleb (birdYRef (R s') - birdR cfg) 0)
    || existsb (collides (birdX cfg) (birdYRef (R s')) (birdR cfg))
               (pipesRef (R s')).
Proof.
  intro Hr. destruct (draw_progress b dt rnd s Hr) as (_ & _ & _ & H).
  exact H.
Qed.

Lemma draw_sets_over_iff_hit_witness :
  let s' := draw 0 (Q2Qc (1 # 64)) 0 behind_the_bird in
  gameOverRef (R s')
  = (Qcleb (h cfg - groundH cfg) (birdYRef (R s') + birdR cfg)
     || Qcleb (birdYRef (R s') - birdR cfg) 0)
    || existsb (collides (birdX cfg) (birdYRef (R s')) (birdR cfg))
               (pipesRef (R s')).
Proof.
  apply (draw_sets_over_iff_hit 0 (Q2Qc (1 # 64)) 0 behind_the_bird).
  reflexivity.
Defined.

Lemma Inv2_same_game s s' : same_game s s' -> Inv2 s -> Inv2 s'.
Proof.
  intros (H1 & H2 & H3 & H4 & H5 & H6 & _) [I1 I2 I3 I4 I5].
  constructor; rewrite ?H1, ?H2, ?H3, ?H4, ?H5, ?H6; assumption.
Qed.

Lemma flap_same_game s : same_game s (flap s).
Proof. unfold same_game, flap. frame_tac. Qed.

Lemma togglePause_same_game b s : same_game s (togglePause b s).
Proof. unfold same_game, togglePause, requestAnimationFrame. frame_tac. Qed.

Lemma requestAnimationFrame_same_game b s :
  same_game s (requestAnimationFrame b s).
Proof. unfold same_game, requestAnimationFrame. frame_tac. Qed.

Lemma set_lastTimeRef_same_game ts s : same_game s (onR (set_lastTimeRef ts) s).
Proof. unfold same_game. proj. repeat split. Qed.

Lemma clear_queue_same_game s :
  same_game s
    (onE (fun e => {| localStorage := localStorage e; rafQueue := [];
                      nextRafId := nextRafId e;
                      effectBest := effectBest e |}) s).
Proof. unfold same_game. proj. repeat split. Qed.

Lemma Inv2_resetGame s : Inv2 (resetGame s).
Proof.
  constructor; unfold resetGame; proj;
    first [reflexivity | lia | left; reflexivity].
Qed.

Lemma Inv2_draw b dt rnd s : Inv2 s -> Inv2 (draw b dt rnd s).
Proof.
  intro HI.
  destruct (running s) eqn:Hr; [|rewrite draw_not_running; assumption].
  destruct (draw_progress b dt rnd s Hr) as (H1 & H2 & H3 & H4).
  cbv zeta in H1, H2, H3, H4.
  destruct HI as [I1 I2 I3 I4 I5].
  constructor.
  - apply H2, I1.
  - destruct H1 as [-> | ->]; lia.
  - apply H3, I3.
  - intro Ho. rewrite Ho in H4. symmetry in H4.
    apply orb_false_iff in H4. apply H4.
  - intro Ho. rewrite Ho in H4. symmetry in H4.
    apply orb_false_iff in H4. apply H4.
Qed.

Lemma Inv2_loop b ts rnd s : Inv2 s -> Inv2 (loop b ts rnd s).
Proof.
  intro HI. unfold loop.
  destruct (pausedRef (R s)); [exact HI|]. cbv zeta.
  assert (HD : Inv2 (draw b (deltaTime (lastTimeRef (R s)) ts) rnd
                       (onR (set_lastTimeRef ts) s))).
  { apply Inv2_draw. revert HI.
    apply Inv2_same_game, set_lastTimeRef_same_game. }
  destruct (negb (gameOverRef _)); [|exact HD].
  revert HD. apply Inv2_same_game, requestAnimationFrame_same_game.
Qed.

Lemma Inv2_loops ts rnd (q : list Qc) :
  forall s, Inv2 s -> Inv2 (fold_left (fun s b => loop b ts rnd s) q s).
Proof.
  induction q as [|b q IH]; intros s HI; cbn [fold_left]; [exact HI|].
  apply IH, Inv2_loop, HI.
Qed.

Lemma Inv2_handle ev s : Inv2 s -> Inv2 (handle ev s).
Proof.
  intro HI. destruct ev; cbn [handle].
  - cbv zeta. destruct (_ && _).
    + eapply Inv2_same_game; [apply requestAnimationFrame_same_game|].
      eapply Inv2_same_game; [apply flap_same_game | exact HI].
    + eapply Inv2_same_game; [apply flap_same_game | exact HI].
  - eapply Inv2_same_game; [apply togglePause_same_game | exact HI].
  - eapply Inv2_same_game; [apply requestAnimationFrame_same_game|].
    apply Inv2_resetGame.
  - unfold handlePointer. cbv zeta. destruct (_ && _).
    + eapply Inv2_same_game; [apply requestAnimationFrame_same_game|].
      eapply Inv2_same_game; [apply flap_same_game | exact HI].
    + eapply Inv2_same_game; [apply flap_same_game | exact HI].
  - unfold restart.
    eapply Inv2_same_game; [apply requestAnimationFrame_same_game|].
    apply Inv2_resetGame.
  - eapply Inv2_same_game; [apply togglePause_same_game | exact HI].
  - unfold frame. cbv zeta. apply Inv2_loops.
    revert HI. apply Inv2_same_game, clear_queue_same_game.
Qed.

Lemma Inv2_reachable stored evs : Inv2 (run evs (mount stored)).
Proof.
  unfold run.
  assert (H0 : Inv2 (mount stored)).
  { unfold mount. cbv zeta.
    eapply Inv2_same_game; [apply requestAnimationFrame_same_game|].
    apply Inv2_resetGame. }
  revert H0. generalize (mount stored).
  induction evs as [|ev evs IH]; intros s HI; cbn [fold_left]; [exact HI|].
  apply IH, Inv2_handle, HI.
Qed.

(** X10.  At every point of every session the score shown by React is
    the score held in the ref, the score is not negative, and the
    passed flag is 0 or 1. *)
Theorem score_shown_is_score (stored : option string) (evs : list event) :
  let s := run evs (mount stored) in
  score (U s) = scoreRef (R s)
  /\ (0 <= scoreRef (R s))%Z
  /\ (passedPipeIndexRef (R s) = 0%Z \/ passedPipeIndexRef (R s) = 1%Z).
Proof.
  destruct (Inv2_reachable stored evs) as [I1 I2 I3 _ _]. auto.
Qed.

(** X11.  At every point of every session at which the game is not
    over, the bird is strictly between the ceiling and the ground line
    by more than its radius, and touches none of the pipes: a hit ends
    the game in the very tick in which it happens. *)
Theorem live_bird_touches_nothing
  (stored : option string) (evs : list event) :
  let s := run evs (mount stored) in
  gameOverRef (R s) = false ->
  birdR cfg < birdYRef (R s)
  /\ birdYRef (R s) + birdR cfg < h cfg - groundH cfg
  /\ Forall
       (fun p => collides (birdX cfg) (birdYRef (R s)) (birdR cfg) p = false)
       (pipesRef (R s)).
Proof.
  intros s Ho.
  destruct (Inv2_reachable stored evs) as [_ _ _ I4 I5].
  specialize (I4 Ho). specialize (I5 Ho). fold s in I4, I5.
  unfold hits_bounds in I4. apply orb_false_iff in I4. destruct I4 as [A B].
  apply Qcleb_gt in A. apply Qcleb_gt in B.
  split; [to_Q; lra|]. split; [exact A|].
  unfold hits_pipe in I5. apply Forall_forall. intros p Hp.
  destruct (collides _ _ _ p) eqn:Ec; [|reflexivity].
  assert (existsb (collides (birdX cfg) (birdYRef (R s)) (birdR cfg))
                  (pipesRef (R s)) = true)
    by (apply existsb_exists; exists p; split; assumption).
  congruence.
Qed.

Lemma live_bird_touches_nothing_witness :
  let s := run resumed (mount None) in
  birdR cfg < birdYRef (R s)
  /\ birdYRef (R s) + birdR cfg < h cfg - groundH cfg
  /\ Forall
       (fun p => collides (birdX cfg) (birdYRef (R s)) (birdR cfg) p = false)
       (pipesRef (R s)).
Proof.
  apply (live_bird_touches_nothing None resumed).
  vm_compute. reflexivity.
Defined.

Lemma loop_score b ts rnd s :
  (scoreRef (R s) <= scoreRef (R (loop b ts rnd s)) <= scoreRef (R s) + 1)%Z.
Proof.
  unfold loop. destruct (pausedRef (R s)); [lia|]. cbv zeta.
  set (s1 := onR (set_lastTimeRef ts) s).
  assert (Hd : (scoreRef (R s)
                <= scoreRef
                     (R (draw b (deltaTime (lastTimeRef (R s)) ts) rnd s1))
                <= scoreRef (R s) + 1)%Z).
  { destruct (running s1) eqn:Hr.
    - destruct (draw_progress b (deltaTime (lastTimeRef (R s)) ts) rnd s1 Hr)
        as (H1 & _).
      cbv zeta in H1. change (scoreRef (R s1)) with (scoreRef (R s)) in H1.
      destruct H1 as [-> | ->]; lia.
    - rewrite draw_not_running by exact Hr. subst s1. proj. lia. }
  destruct (negb (gameOverRef _)); unfold requestAnimationFrame; proj;
    exact Hd.
Qed.

Lemma loops_score ts rnd (q : list Qc) :
  forall s,
    (scoreRef (R s)
     <= scoreRef (R (fold_left (fun s b => loop b ts rnd s) q s)))%Z.
Proof.
  induction q as [|b q IH]; intros s; cbn [fold_left]; [lia|].
  pose proof (loop_score b ts rnd s). pose proof (IH (loop b ts rnd s)). lia.
Qed.

(** X12.  One call of [loop] raises the score by at most 1 and never
    lowers it; no event other than the two resets (R key, Restart
    button) lowers the score. *)
Theorem score_never_decreases_in_a_run :
  (forall b ts rnd s,
      (scoreRef (R s) <= scoreRef (R (loop b ts rnd s))
       <= scoreRef (R s) + 1)%Z)
  /\ (forall ev s,
         ev <> KeyR -> ev <> ClickRestart ->
         (scoreRef (R s) <= scoreRef (R (handle ev s)))%Z).
Proof.
  split; [exact loop_score|].
  intros ev s H1 H2. destruct ev; try congruence; cbn [handle].
  - cbv zeta.
    destruct (_ && _);
      [destruct (requestAnimationFrame_same_game
                   (effectBest (E (flap s))) (flap s)) as (_ & -> & _)|];
      destruct (flap_same_game s) as (_ & -> & _); lia.
  - destruct (togglePause_same_game (effectBest (E s)) s) as (_ & -> & _).
    lia.
  - unfold handlePointer. cbv zeta.
    destruct (_ && _);
      [destruct (requestAnimationFrame_same_game (best (U s)) (flap s))
         as (_ & -> & _)|];
      destruct (flap_same_game s) as (_ & -> & _); lia.
  - destruct (togglePause_same_game (best (U s)) s) as (_ & -> & _). lia.
  - unfold frame. cbv zeta.
    match goal with
    | |- context [fold_left ?f ?q ?s0] =>
        pose proof (loops_score ts rnd q s0) as H
    end.
    proj. exact H.
Qed.

Lemma score_never_decreases_in_a_run_witness :
  (scoreRef (R behind_the_bird)
   <= scoreRef (R (handle (Frame (Z2Qc 1016) 0) behind_the_bird)))%Z.
Proof.
  apply (proj2 score_never_decreases_in_a_run); discriminate.
Defined.

(** ** Best score and its persistence *)



Lemma digits_chars (d : Decimal.uint) :
  forall acc n,
    digits 10 (chars d) acc n
    = (uint_value d acc, (n + Decimal.nb_digits d)%nat, []).
Proof.
  induction d; intros acc n; unfold chars in *;
    cbn [NilEmpty.string_of_uint list_ascii_of_string digits uint_value
         Decimal.nb_digits].
  1: { rewrite Nat.add_0_r. reflexivity. }
  all: match goal with
       | |- context [digit_in 10 ?c] =>
           let v := eval vm_compute in (digit_in 10 c) in
           change (digit_in 10 c) with v
       end; cbv iota; rewrite IHd; rewrite <- plus_n_Sm; reflexivity.
Qed.

Lemma uint_value_pos (d : Decimal.uint) :
  forall acc : positive,
    uint_value d (Z.pos acc) = Z.pos (Pos.of_uint_acc d acc).
Proof.
  induction d; intro acc; cbn [uint_value Pos.of_uint_acc]; try reflexivity.
  all: match goal with
       | |- uint_value _ ?z = Z.pos (Pos.of_uint_acc _ ?p) =>
           replace z with (Z.pos p) by lia
       end; apply IHd.
Qed.

Lemma uint_value_zero (d : Decimal.uint) :
  uint_value d 0 = Z.of_N (Pos.of_uint d).
Proof.
  induction d; cbn [uint_value Pos.of_uint]; try reflexivity.
  1: exact IHd.
  all: cbn [Z.mul Z.add]; rewrite uint_value_pos; reflexivity.
Qed.

Lemma chars_not_space (d : Decimal.uint) :
  Forall (fun c => is_space c = false) (chars d).
Proof.
  unfold chars.
  induction d; cbn [NilEmpty.string_of_uint list_ascii_of_string];
    constructor; try reflexivity; assumption.
Qed.

Lemma drop_space_head (l : list ascii) :
  match l with c :: _ => is_space c = false | [] => True end ->
  drop_space l = l.
Proof.
  destruct l as [|c l]; cbn [drop_space]; [reflexivity|].
  intros ->. reflexivity.
Qed.

Lemma trim_no_space (l : list ascii) :
  Forall (fun c => is_space c = false) l -> trim l = l.
Proof.
  intro H. unfold trim.
  rewrite (drop_space_head l) by (destruct H; [exact I | assumption]).
  assert (Hr : Forall (fun c => is_space c = false) (rev l))
    by (apply Forall_rev; exact H).
  rewrite (drop_space_head (rev l)) by (destruct Hr; [exact I | assumption]).
  apply rev_involutive.
Qed.

Lemma Z2Qc_lt (a b : Z) : (a < b)%Z <-> Z2Qc a < Z2Qc b.
Proof.
  unfold Qclt, Z2Qc, Q2Qc. cbn [this].
  rewrite !Qred_correct. rewrite <- Zlt_Qlt. reflexivity.
Qed.

Lemma Z2Qc_one : Z2Qc 1 = 1.
Proof. apply Qc_is_canon. reflexivity. Qed.

Lemma decimal_literal (d : Decimal.uint) :
  d <> Decimal.Nil ->
  (uint_value d 0 < 2 ^ 1024 - 2 ^ 970)%Z ->
  StrUnsignedDecimalLiteral false (chars d) = Finite (Z2Qc (uint_value d 0)).
Proof.
  intros Hd Hb. unfold StrUnsignedDecimalLiteral.
  assert (Hi : ascii_list_eqb (chars d) (list_ascii_of_string "Infinity")
               = false).
  { unfold chars. destruct d; try reflexivity. }
  rewrite Hi. rewrite digits_chars. cbv iota beta.
  destruct (Decimal.nb_digits d) eqn:Hn;
    [destruct d; try discriminate; congruence|].
  cbn [Nat.add Nat.eqb]. cbv iota.
  change (pow10 (- Z.of_nat 0)) with (Z2Qc 1). rewrite Z2Qc_one.
  replace (Z2Qc (uint_value d 0) * 1) with (Z2Qc (uint_value d 0)) by ring.
  unfold to_double.
  assert (Hlt : Qcleb overflow_bound (Z2Qc (uint_value d 0)) = false).
  { apply Qcleb_gt. unfold overflow_bound.
    apply (proj1 (Z2Qc_lt _ _)). exact Hb. }
  rewrite Hlt. reflexivity.
Qed.

Lemma Number_chars (d : Decimal.uint) :
  d <> Decimal.Nil ->
  Number (NilEmpty.string_of_uint d)
  = StrUnsignedDecimalLiteral false (chars d).
Proof.
  intro Hd. unfold Number. fold (chars d).
  rewrite trim_no_space by apply chars_not_space.
  unfold chars.
  destruct d as [|d'|d'|d'|d'|d'|d'|d'|d'|d'|d']; [congruence | | ..];
    cbn [NilEmpty.string_of_uint list_ascii_of_string]; try reflexivity.
  destruct d'; cbn [NilEmpty.string_of_uint list_ascii_of_string];
    reflexivity.
Qed.

Lemma string_of_uint_nonempty (d : Decimal.uint) :
  d <> Decimal.Nil ->
  exists c rest, NilEmpty.string_of_uint d = String c rest.
Proof.
  destruct d; [congruence | ..]; intros _;
    cbn [NilEmpty.string_of_uint]; eexists; eexists; reflexivity.
Qed.

Lemma best_init_String (n : Z) :
  (0 <= n < 2 ^ 1024 - 2 ^ 970)%Z ->
  best_init (Some (String_ n)) = Finite (Z2Qc n).
Proof.
  intros [H0 Hb]. unfold String_.
  destruct n as [|p|p]; [| |lia].
  - vm_compute. reflexivity.
  - cbn [Z.to_int NilZero.string_of_int].
    pose proof (DecimalPos.Unsigned.to_uint_nonnil p) as Hd.
    assert (Hs : NilZero.string_of_uint (Pos.to_uint p)
                 = NilEmpty.string_of_uint (Pos.to_uint p)).
    { destruct (Pos.to_uint p); [congruence | ..]; reflexivity. }
    rewrite Hs.
    assert (Hv : uint_value (Pos.to_uint p) 0 = Z.pos p).
    { rewrite uint_value_zero, DecimalPos.Unsigned.of_to. reflexivity. }
    assert (Hn : Number (NilEmpty.string_of_uint (Pos.to_uint p))
                 = Finite (Z2Qc (Z.pos p))).
    { rewrite Number_chars by exact Hd.
      rewrite decimal_literal; [rewrite Hv; reflexivity | exact Hd |].
      rewrite Hv. exact Hb. }
    destruct (string_of_uint_nonempty _ Hd) as (c & rest & Hc).
    unfold best_init. rewrite Hc in *. rewrite Hn. reflexivity.
Qed.

(** X14.  What "Update best" stores is read back by the initialiser of
    [best] as the same number: for every score [n] from 0 to 2^53 (the
    range in which a score, a double counted up by 1, is an exact
    integer that [String] prints as plain decimal digits),
    [Number(String(n))] is finite and the initial best score computed
    from the stored string is [n]. *)
Theorem stored_score_is_read_back (n : Z) :
  (0 <= n <= 2 ^ 53)%Z ->
  best_init (Some (String_ n)) = Finite (Z2Qc n).
Proof.
  intros [H0 H1]. apply best_init_String.
  split; [exact H0|].
  eapply Z.le_lt_trans; [exact H1 | reflexivity].
Qed.

Lemma stored_score_is_read_back_witness :
  best_init (Some (String_ 32)) = Finite (Z2Qc 32).
Proof.
  apply (stored_score_is_read_back 32).
  split; discriminate.
Defined.









Lemma best_init_finite_value stored :
  best_init stored = Finite (finite_value (best_init stored)).
Proof.
  pose proof (best_init_is_finite stored) as H.
  destruct (best_init stored); try discriminate. reflexivity.
Qed.



(** ** Order of the pipes *)

Lemma StronglySorted_snoc (ps : list pipe) (q : pipe) :
  StronglySorted left_of ps -> Forall (fun p => left_of p q) ps ->
  StronglySorted left_of (ps ++ [q]).
Proof.
  induction 1 as [|p ps Hs IH Hp]; intro Hq; cbn [app].
  - constructor; constructor.
  - inversion Hq; subst. constructor.
    + apply IH. assumption.
    + apply Forall_app. split; [exact Hp|].
      constructor; [assumption | constructor].
Qed.

Lemma StronglySorted_suffix (gone ps : list pipe) :
  StronglySorted left_of (gone ++ ps) -> StronglySorted left_of ps.
Proof.
  induction gone as [|g gone IH]; cbn [app]; intro H; [exact H|].
  inversion H; subst. apply IH. assumption.
Qed.

Lemma ordered_moved dt ps :
  0 <= dt -> ordered ps -> ordered (map (movePipe dt) ps).
Proof.
  intros Hd [Hs Hb]. split.
  - clear Hb. induction Hs as [|p ps Hs IH Hp]; cbn [map]; constructor.
    + exact IH.
    + apply Forall_map. revert Hp. apply Forall_impl.
      intros q Hq. unfold left_of, movePipe in *. cbn [pipe_x].
      to_Q. lra.
  - apply Forall_map. revert Hb. apply Forall_impl.
    intros q Hq. unfold movePipe. cbn [pipe_x pipeSpeed w cfg] in *.
    to_Q. nra.
Qed.

Lemma ordered_spawned dt rnd s ps :
  ordered ps -> ordered (ps ++ spawned dt rnd s).
Proof.
  intros [Hs Hb]. unfold spawned.
  destruct (Qcleb _ _); [|rewrite app_nil_r; split; assumption].
  split.
  - apply StronglySorted_snoc; [exact Hs|].
    revert Hb. apply Forall_impl. intros q Hq. exact Hq.
  - apply Forall_app. split; [exact Hb|].
    constructor; [|constructor]. cbn [pipe_x]. apply Qcle_refl.
Qed.

Lemma ordered_pruned ps passed :
  ordered ps -> ordered (fst (prune ps passed)).
Proof.
  intros [Hs Hb].
  destruct (prune_drops_prefix ps passed) as (gone & Heq & _).
  split.
  - rewrite Heq in Hs. apply StronglySorted_suffix in Hs. exact Hs.
  - rewrite Heq in Hb. apply Forall_app in Hb. apply Hb.
Qed.

Lemma deltaTime_nonneg last ts :
  last = 0 \/ last <= ts -> 0 <= deltaTime last ts.
Proof.
  intros [-> | H].
  - rewrite deltaTime_zero. apply Qcle_refl.
  - unfold deltaTime. destruct (negb (Qceqb last 0)); [|apply Qcle_refl].
    unfold Math_min. cmp_cases.
    + to_Qd. lra.
    + apply Qcleb_le. reflexivity.
Qed.

Lemma ordered_loop b ts rnd s :
  timed ts s -> ordered (pipesRef (R s)) ->
  ordered (pipesRef (R (loop b ts rnd s))) /\ timed ts (loop b ts rnd s).
Proof.
  intros Ht Ho. split.
  - rewrite loop_pipes. destruct (running s); [|exact Ho]. cbv zeta.
    apply ordered_pruned, ordered_spawned, ordered_moved; [|exact Ho].
    apply deltaTime_nonneg. exact Ht.
  - unfold loop. destruct (pausedRef (R s)); [exact Ht|]. cbv zeta.
    right.
    destruct (draw_control b (deltaTime (lastTimeRef (R s)) ts) rnd
                (onR (set_lastTimeRef ts) s)) as (_ & Hl & _).
    destruct (negb (gameOverRef _)); unfold requestAnimationFrame; proj;
      rewrite Hl; apply Qcle_refl.
Qed.

Lemma ordered_loops ts rnd (q : list Qc) :
  forall s,
    timed ts s -> ordered (pipesRef (R s)) ->
    let s' := fold_left (fun s b => loop b ts rnd s) q s in
    ordered (pipesRef (R s')) /\ timed ts s'.
Proof.
  induction q as [|b q IH]; intros s Ht Ho; cbn [fold_left]; cbv zeta.
  - split; assumption.
  - destruct (ordered_loop b ts rnd s Ht Ho) as [Ho' Ht'].
    apply IH; assumption.
Qed.

Lemma ordered_nil : ordered [].
Proof. split; constructor. Qed.

Lemma timed_weaken t t' s : t <= t' -> timed t s -> timed t' s.
Proof.
  intros Hle [H | H]; [left; exact H | right].
  eapply Qcle_trans; eassumption.
Qed.

Lemma flap_lastTime s : lastTimeRef (R (flap s)) = lastTimeRef (R s).
Proof. unfold flap. frame_tac. Qed.

Lemma togglePause_timed b t s : timed t s -> timed t (togglePause b s).
Proof.
  unfold timed, togglePause, requestAnimationFrame.
  intro H. repeat (split_if; proj); auto.
Qed.

Lemma ordered_run evs :
  forall t s,
    monotone t evs -> timed t s -> ordered (pipesRef (R s)) ->
    ordered (pipesRef (R (run evs s))).
Proof.
  unfold run.
  induction evs as [|ev evs IH]; intros t s Hm Ht Ho; cbn [fold_left];
    [exact Ho|].
  destruct ev; cbn [monotone] in Hm; cbn [handle].
  - apply (IH t); [exact Hm | |].
    + cbv zeta. unfold timed.
      destruct (_ && _); unfold requestAnimationFrame; proj;
        rewrite flap_lastTime; exact Ht.
    + cbv zeta. destruct (_ && _); unfold requestAnimationFrame; proj;
        rewrite flap_pipes; exact Ho.
  - apply (IH t); [exact Hm | apply togglePause_timed; exact Ht |].
    rewrite togglePause_pipes. exact Ho.
  - apply (IH t); [exact Hm | left; reflexivity | apply ordered_nil].
  - apply (IH t); [exact Hm | |].
    + unfold handlePointer, timed. cbv zeta.
      destruct (_ && _); unfold requestAnimationFrame; proj;
        rewrite flap_lastTime; exact Ht.
    + unfold handlePointer. cbv zeta.
      destruct (_ && _); unfold requestAnimationFrame; proj;
        rewrite flap_pipes; exact Ho.
  - apply (IH t); [exact Hm | left; reflexivity | apply ordered_nil].
  - apply (IH t); [exact Hm | apply togglePause_timed; exact Ht |].
    rewrite togglePause_pipes. exact Ho.
  - destruct Hm as [Hle Hm]. unfold frame. cbv zeta.
    match goal with
    | |- context [fold_left ?f ?q ?s0] =>
        destruct (ordered_loops ts rnd q s0) as [Ho' Ht']
    end.
    + apply (timed_weaken t); [exact Hle | exact Ht].
    + exact Ho.
    + apply (IH ts); assumption.
Qed.

(** A session of [play] has timestamps that never go back. *)
Lemma play_monotone (f : nat -> bool) (n i : nat) (t t' : Qc) :
  t <= t' -> monotone t (play f n i t').
Proof.
  revert i t t'. induction n as [|n IH]; intros i t t' H; cbn [play].
  - exact I.
  - assert (Hs : monotone t (Frame t' (Q2Qc (1 # 2))
                               :: play f n (S i) (t' + tick))).
    { cbn [monotone]. split; [exact H|].
      apply IH. unfold tick. to_Q. lra. }
    destruct (f i); cbn [app monotone]; exact Hs.
Qed.

(** X16.  In every session whose frame timestamps never go back, the
    pipe sequence is sorted by horizontal position at every point
    (oldest pipe leftmost), and no pipe is to the right of the spawn
    position [w + 40]. *)
Theorem pipes_stay_ordered
  (stored : option string) (t : Qc) (evs : list event) :
  monotone t evs ->
  let ps := pipesRef (R (run evs (mount stored))) in
  StronglySorted left_of ps
  /\ Forall (fun p => pipe_x p <= w cfg + Z2Qc 40) ps.
Proof.
  intro Hm. apply (ordered_run evs t); [exact Hm | left; reflexivity |].
  apply ordered_nil.
Qed.

Lemma pipes_stay_ordered_witness :
  let ps := pipesRef (R (run (play hover 200 0 (Z2Qc 1000)) (mount None))) in
  List.length ps = 2%nat
  /\ StronglySorted left_of ps
  /\ Forall (fun p => pipe_x p <= w cfg + Z2Qc 40) ps.
Proof.
  cbv zeta. split; [vm_compute; reflexivity|].
  assert (Hm : monotone 0 (play hover 200 0 (Z2Qc 1000))).
  { apply play_monotone. apply Qcleb_le. reflexivity. }
  exact (pipes_stay_ordered None 0 (play hover 200 0 (Z2Qc 1000)) Hm).
Defined.

(** ** Frame requests *)

(** X17.  Once the component is mounted, a flap (Space, ArrowUp or a
    pointer press) never registers a frame callback: [rafRef] is never
    null again, so the guard [!rafRef.current] of the two handlers is
    never satisfied. *)
Theorem flap_never_requests_a_frame
  (stored : option string) (evs : list event) :
  let s := run evs (mount stored) in
  rafRef (R s) <> 0%nat
  /\ rafQueue (E (handle KeySpace s)) = rafQueue (E s)
  /\ rafQueue (E (handle PointerDown s)) = rafQueue (E s).
Proof.
  intro s. destruct (Inv_reachable stored evs) as [_ _ H3 _ _ _].
  fold s in H3. split; [exact H3|].
  assert (Hf : rafRef (R (flap s)) = rafRef (R s)
               /\ rafQueue (E (flap s)) = rafQueue (E s))
    by (unfold flap; frame_tac).
  destruct Hf as [Hr Hq].
  assert (He : Nat.eqb (rafRef (R (flap s))) 0 = false)
    by (rewrite Hr; apply Nat.eqb_neq; exact H3).
  cbn [handle]. unfold handlePointer. cbv zeta. rewrite He.
  cbn [andb]. split; exact Hq.
Qed.

Lemma run_app (a b : list event) (s : world) :
  run (a ++ b) s = run b (run a s).
Proof. unfold run. apply fold_left_app. Qed.

Lemma loops_paused ts rnd (q : list Qc) s :
  pausedRef (R s) = true ->
  fold_left (fun s b => loop b ts rnd s) q s = s.
Proof.
  intro Hp. induction q as [|b q IH]; cbn [fold_left]; [reflexivity|].
  unfold loop at 2. rewrite Hp. exact IH.
Qed.

Lemma stuck_step (ev : event) (s : world) :
  frame_or_flap ev ->
  gameStartedRef (R s) = true -> rafRef (R s) <> 0%nat ->
  rafQueue (E s) = [] ->
  let s' := handle ev s in
  (gameStartedRef (R s') = true /\ rafRef (R s') <> 0%nat
   /\ rafQueue (E s') = [])
  /\ birdYRef (R s') = birdYRef (R s)
  /\ pipesRef (R s') = pipesRef (R s)
  /\ scoreRef (R s') = scoreRef (R s)
  /\ pausedRef (R s') = pausedRef (R s)
  /\ gameOverRef (R s') = gameOverRef (R s).
Proof.
  intros Hev Hs Hr Hq.
  assert (He : Nat.eqb (rafRef (R s)) 0 = false)
    by (apply Nat.eqb_neq; exact Hr).
  destruct ev; cbn [frame_or_flap] in Hev; try contradiction;
    cbn [handle]; unfold handlePointer, frame, flap; cbv zeta;
    rewrite ?Hs, ?Hq; cbn [negb fold_left].
  - destruct (gameOverRef (R s)) eqn:Ho; proj; rewrite He; cbn [andb]; proj;
      rewrite ?Ho; repeat split; assumption.
  - destruct (gameOverRef (R s)) eqn:Ho; proj; rewrite He; cbn [andb]; proj;
      rewrite ?Ho; repeat split; assumption.
  - proj. repeat split; assumption.
Qed.

Lemma stuck_run (evs : list event) :
  Forall frame_or_flap evs ->
  forall s,
    gameStartedRef (R s) = true -> rafRef (R s) <> 0%nat ->
    rafQueue (E s) = [] ->
    let s' := run evs s in
    gameStartedRef (R s') = true
    /\ birdYRef (R s') = birdYRef (R s)
    /\ pipesRef (R s') = pipesRef (R s)
    /\ scoreRef (R s') = scoreRef (R s)
    /\ pausedRef (R s') = pausedRef (R s)
    /\ gameOverRef (R s') = gameOverRef (R s).
Proof.
  unfold run.
  induction 1 as [|ev evs Hev _ IH]; intros s Hs Hr Hq; cbn [fold_left];
    cbv zeta; [repeat split; exact Hs|].
  destruct (stuck_step ev s Hev Hs Hr Hq)
    as ((Hs' & Hr' & Hq') & Hy & Hp & Hsc & Hpa & Hov).
  destruct (IH (handle ev s) Hs' Hr' Hq')
    as (Hst2 & Hy2 & Hp2 & Hsc2 & Hpa2 & Hov2).
  cbv zeta in Hst2, Hy2, Hp2, Hsc2, Hpa2, Hov2.
  split; [exact Hst2|]. repeat split; congruence.
Qed.

(** X18.  A reset while the game is paused leaves it stuck.  From any
    reachable paused state, after the R key, one frame and a flap, the
    flags say that a run is in progress (started, not paused, not
    over), yet no frame callback is registered; from then on, frames
    and further flaps never move the bird or the pipes and never change
    the score. *)
Theorem reset_while_paused_gets_stuck
  (stored : option string) (evs later : list event) (ts rnd : Qc) :
  let s := run evs (mount stored) in
  pausedRef (R s) = true ->
  Forall frame_or_flap later ->
  let s1 := run [KeyR; Frame ts rnd; KeySpace] s in
  let s2 := run later s1 in
  running s1 = true
  /\ rafQueue (E s1) = []
  /\ running s2 = true
  /\ birdYRef (R s2) = birdYRef (R s1)
  /\ pipesRef (R s2) = pipesRef (R s1)
  /\ scoreRef (R s2) = scoreRef (R s1).
Proof.
  intros s Hp Hl s1 s2.
  assert (Hinv : Inv s1).
  { subst s1 s. rewrite <- run_app. apply Inv_reachable. }
  destruct Hinv as [_ _ Hraf _ _ _].
  assert (H1 : gameStartedRef (R s1) = true /\ pausedRef (R s1) = false
               /\ gameOverRef (R s1) = false /\ rafQueue (E s1) = []).
  { subst s1. unfold run. cbn [fold_left handle].
    unfold frame. cbv zeta.
    rewrite loops_paused
      by (unfold requestAnimationFrame, resetGame; proj; exact Hp).
    assert (He : Nat.eqb (nextRafId (E s)) 0 = false).
    { apply Nat.eqb_neq. apply (inv_nextRaf _ (Inv_reachable stored evs)). }
    unfold flap, requestAnimationFrame, resetGame. proj.
    cbn [negb]. proj. rewrite He. cbn [andb]. proj.
    repeat split. }
  destruct H1 as (Hs1 & Hp1 & Ho1 & Hq1).
  assert (Hrun1 : running s1 = true)
    by (unfold running; rewrite Hs1, Hp1, Ho1; reflexivity).
  destruct (stuck_run later Hl s1 Hs1 Hraf Hq1)
    as (Hs2 & Hy & Hps & Hsc & Hpa & Hov).
  cbv zeta in Hs2, Hy, Hps, Hsc, Hpa, Hov.
  fold s2 in Hs2, Hy, Hps, Hsc, Hpa, Hov.
  split; [exact Hrun1|]. split; [exact Hq1|].
  split.
  - unfold running. rewrite Hs2, Hpa, Hov, Hp1, Ho1. reflexivity.
  - repeat split; assumption.
Qed.

Lemma reset_while_paused_gets_stuck_witness :
  let s := run [KeySpace; Frame (Z2Qc 1000) 0; KeyP] (mount None) in
  let s1 := run [KeyR; Frame (Z2Qc 2000) 0; KeySpace] s in
  let s2 := run [Frame (Z2Qc 2016) 0; KeySpace; Frame (Z2Qc 2032) 0] s1 in
  running s1 = true
  /\ rafQueue (E s1) = []
  /\ running s2 = true
  /\ birdYRef (R s2) = birdYRef (R s1)
  /\ pipesRef (R s2) = pipesRef (R s1)
  /\ scoreRef (R s2) = scoreRef (R s1).
Proof.
  apply (reset_while_paused_gets_stuck None
           [KeySpace; Frame (Z2Qc 1000) 0; KeyP]
           [Frame (Z2Qc 2016) 0; KeySpace; Frame (Z2Qc 2032) 0]
           (Z2Qc 2000) 0).
  - reflexivity.
  - repeat constructor.
Defined.

(** X19.  While the game is paused a frame runs no update and stops the
    frame loop: the refs, the React state and the stored entry are
    exactly as before, and no frame callback is registered any more. *)
Theorem paused_frame_stops_the_loop (ts rnd : Qc) (s : world) :
  pausedRef (R s) = true ->
  let s' := handle (Frame ts rnd) s in
  R s' = R s /\ U s' = U s
  /\ localStorage (E s') = localStorage (E s)
  /\ rafQueue (E s') = [].
Proof.
  intro Hp. cbn [handle]. unfold frame. cbv zeta.
  rewrite loops_paused by (proj; exact Hp).
  proj. repeat split.
Qed.

Lemma paused_frame_stops_the_loop_witness :
  rafQueue
    (E (handle (Frame (Z2Qc 1016) 0)
          (run [KeySpace; Frame (Z2Qc 1000) 0; KeyP] (mount None))))
  = [].
Proof.
  apply (paused_frame_stops_the_loop (Z2Qc 1016) 0
           (run [KeySpace; Frame (Z2Qc 1000) 0; KeyP] (mount None))).
  reflexivity.
Defined.

(** X20.  At every point of every session: the over flag is only set
    in a started, unpaused game; the spawn accumulator is below the
    spawn interval; and the oldest pipe, if there is one, is not
    off-screen. *)
Theorem reachable_state_invariants
  (stored : option string) (evs : list event) :
  let s := run evs (mount stored) in
  (gameOverRef (R s) = true ->
   gameStartedRef (R s) = true /\ pausedRef (R s) = false)
  /\ lastSpawnRef (R s) < spawnEvery cfg
  /\ head_onscreen (pipesRef (R s)).
Proof.
  destruct (Inv_reachable stored evs) as [H1 H2 _ _ H5 H6].
  cbv zeta. split; [intro Ho; split; auto|]. split; assumption.
Qed.

Lemma reachable_state_invariants_witness :
  gameStartedRef (R (run fall (mount None))) = true
  /\ pausedRef (R (run fall (mount None))) = false.
Proof.
  apply (proj1 (reachable_state_invariants None fall)).
  vm_compute. reflexivity.
Defined.

(** ** Free fall *)

Lemma N2Qc_S n : N2Qc (S n) = N2Qc n + 1.
Proof.
  unfold N2Qc, Z2Qc. rewrite Nat2Z.inj_succ. unfold Z.succ.
  apply Qc_is_canon. unfold Qcplus, Q2Qc. cbn [this].
  rewrite !Qred_correct. rewrite inject_Z_plus. reflexivity.
Qed.

Lemma N2Qc_0 : N2Qc 0 = 0.
Proof. apply Qc_is_canon. reflexivity. Qed.

(** X21.  In exact arithmetic (every number a rational, no rounding),
    after [n] physics steps of equal length [dt] with no flap in
    between, the velocity is [vy + n * gravity * dt] and the position
    is [y + n * vy * dt + gravity * dt^2 * n * (n + 1) / 2] (stated
    with both sides doubled).  The doubles of the running program
    follow these two equalities only up to the rounding of each
    step. *)
Theorem free_fall_closed_form (n : nat) (dt : Qc) (s : world) :
  birdVYRef (R (fallFor n dt s)) = birdVYRef (R s) + N2Qc n * gravity cfg * dt
  /\ (1 + 1) * birdYRef (R (fallFor n dt s))
     = (1 + 1) * (birdYRef (R s) + N2Qc n * birdVYRef (R s) * dt)
       + N2Qc n * (N2Qc n + 1) * gravity cfg * dt * dt.
Proof.
  induction n as [|n [IHv IHy]].
  - cbn [fallFor]. rewrite N2Qc_0. split; ring.
  - cbn [fallFor]. unfold birdPhysics. proj. rewrite N2Qc_S.
    split.
    + rewrite IHv. ring.
    + replace ((1 + 1)
               * (birdYRef (R (fallFor n dt s))
                  + (birdVYRef (R (fallFor n dt s)) + gravity cfg * dt) * dt))
        with ((1 + 1) * birdYRef (R (fallFor n dt s))
              + (1 + 1)
                * (birdVYRef (R (fallFor n dt s)) + gravity cfg * dt) * dt)
        by ring.
      rewrite IHy, IHv. ring.
Qed.

(** ** Spacing of the pipes *)

Lemma Qc_eq_Qeq (a b : Qc) : a = b -> (a == b)%Q.
Proof. intros ->. reflexivity. Qed.

Lemma spaced_moved dt ps : spaced ps -> spaced (map (movePipe dt) ps).
Proof.
  induction ps as [|p [|q ps] IH]; cbn [map spaced]; auto.
  intros [H1 H2]. split.
  - unfold movePipe. cbn [pipe_x]. to_Q. lra.
  - apply IH. exact H2.
Qed.

Lemma spaced_suffix gone ps : spaced (gone ++ ps) -> spaced ps.
Proof.
  induction gone as [|g gone IH]; cbn [app]; intro H; [exact H|].
  apply IH. destruct (gone ++ ps); [exact I|]. cbn [spaced] in H. apply H.
Qed.

Lemma spaced_snoc ps q :
  spaced ps ->
  (forall front p, ps = front ++ [p] -> pipe_x p + Z2Qc 210 <= pipe_x q) ->
  spaced (ps ++ [q]).
Proof.
  induction ps as [|p [|p' ps] IH]; intros Hs Hq; cbn [app spaced].
  - exact I.
  - split; [|exact I]. apply (Hq []). reflexivity.
  - cbn [spaced] in Hs. destruct Hs as [H1 H2]. split; [exact H1|].
    apply IH; [exact H2|].
    intros front r Heq. apply (Hq (p :: front)). cbn [app]. rewrite Heq.
    reflexivity.
Qed.

Lemma newest_moved dt ps ls :
  newest_tracks ps ls ->
  newest_tracks (map (movePipe dt) ps) (ls + dt * Z2Qc 1000).
Proof.
  intros H front p Heq.
  apply map_eq_app in Heq. destruct Heq as (f0 & l0 & -> & _ & Hl).
  destruct l0 as [|p0 [|? ?]]; try discriminate.
  cbn [map] in Hl. injection Hl as <-.
  specialize (H f0 p0 eq_refl). apply Qc_eq_Qeq in H.
  unfold movePipe. cbn [pipe_x w pipeSpeed cfg] in *.
  apply Qc_is_canon. to_Q. lra.
Qed.

Lemma newest_suffix gone ps ls :
  newest_tracks (gone ++ ps) ls -> newest_tracks ps ls.
Proof.
  intros H front p ->. apply (H (gone ++ front)). apply app_assoc.
Qed.

Lemma spacing_draw b dt rnd s : spacing s -> spacing (draw b dt rnd s).
Proof.
  intros [Hs Hn]. unfold spacing.
  rewrite draw_pipes, draw_lastSpawn.
  destruct (running s); [|split; assumption].
  destruct (prune_drops_prefix
              (map (movePipe dt) (pipesRef (R s)) ++ spawned dt rnd s)
              (passedPipeIndexRef (R s))) as (gone & Heq & _).
  set (res := fst (prune _ _)) in *.
  pose proof (spaced_moved dt _ Hs) as Hs'.
  pose proof (newest_moved dt _ _ Hn) as Hn'.
  unfold spawned in *.
  destruct (Qcleb (spawnEvery cfg) (lastSpawnRef (R s) + dt * Z2Qc 1000))
    eqn:Hc.
  - apply Qcleb_le in Hc.
    assert (Hw : spaced (gone ++ res)).
    { rewrite <- Heq. apply spaced_snoc; [exact Hs'|].
      intros front p Hp. specialize (Hn' front p Hp).
      apply Qc_eq_Qeq in Hn'.
      cbn [pipe_x w spawnEvery cfg] in *. to_Q. lra. }
    split; [apply (spaced_suffix gone); exact Hw|].
    intros front p Hp.
    rewrite Hp in Heq. rewrite app_assoc in Heq.
    apply app_inj_tail in Heq. destruct Heq as [_ <-].
    cbn [pipe_x]. ring.
  - rewrite app_nil_r in Heq.
    split.
    + apply (spaced_suffix gone). rewrite <- Heq. exact Hs'.
    + apply (newest_suffix gone). rewrite <- Heq. exact Hn'.
Qed.

Lemma spacing_same s s' :
  pipesRef (R s') = pipesRef (R s) ->
  lastSpawnRef (R s') = lastSpawnRef (R s) ->
  spacing s -> spacing s'.
Proof. unfold spacing. intros -> ->. exact (fun H => H). Qed.

Lemma spacing_flap s : spacing s -> spacing (flap s).
Proof. apply spacing_same; unfold flap; frame_tac. Qed.

Lemma spacing_togglePause b s : spacing s -> spacing (togglePause b s).
Proof.
  apply spacing_same; unfold togglePause, requestAnimationFrame; frame_tac.
Qed.

Lemma spacing_requestAnimationFrame b s :
  spacing s -> spacing (requestAnimationFrame b s).
Proof. apply spacing_same; reflexivity. Qed.

Lemma spacing_resetGame s : spacing (resetGame s).
Proof.
  unfold spacing, resetGame. proj. split; [exact I|].
  intros front p Hp. destruct front; discriminate.
Qed.

Lemma spacing_loop b ts rnd s : spacing s -> spacing (loop b ts rnd s).
Proof.
  intro H. unfold loop. destruct (pausedRef (R s)); [exact H|]. cbv zeta.
  assert (HD : spacing (draw b (deltaTime (lastTimeRef (R s)) ts) rnd
                          (onR (set_lastTimeRef ts) s)))
    by (apply spacing_draw; revert H; apply spacing_same; reflexivity).
  destruct (negb (gameOverRef _));
    [apply spacing_requestAnimationFrame|]; exact HD.
Qed.

Lemma spacing_loops ts rnd (q : list Qc) :
  forall s, spacing s -> spacing (fold_left (fun s b => loop b ts rnd s) q s).
Proof.
  induction q as [|b q IH]; intros s H; cbn [fold_left]; [exact H|].
  apply IH, spacing_loop, H.
Qed.

Lemma spacing_handle ev s : spacing s -> spacing (handle ev s).
Proof.
  intro H. destruct ev; cbn [handle].
  - cbv zeta. destruct (_ && _);
      [apply spacing_requestAnimationFrame|]; apply spacing_flap, H.
  - apply spacing_togglePause, H.
  - apply spacing_requestAnimationFrame, spacing_resetGame.
  - unfold handlePointer. cbv zeta. destruct (_ && _);
      [apply spacing_requestAnimationFrame|]; apply spacing_flap, H.
  - unfold restart. apply spacing_requestAnimationFrame, spacing_resetGame.
  - apply spacing_togglePause, H.
  - unfold frame. cbv zeta. apply spacing_loops.
    revert H. apply spacing_same; reflexivity.
Qed.

(** X22.  In exact arithmetic (every number a rational, no rounding),
    at every point of every session, whatever the timestamps, any two
    consecutive pipes are at least 210 px apart (so the sequence is
    strictly sorted from left to right), and the newest pipe is behind
    the spawn position by 0.15 px per millisecond accumulated since it
    was spawned.  The doubles of the running program keep these
    distances only up to the rounding of each step: there two
    consecutive pipes can be a rounding error short of 210 px. *)
Theorem pipes_are_spaced (stored : option string) (evs : list event) :
  let s := run evs (mount stored) in
  spaced (pipesRef (R s))
  /\ newest_tracks (pipesRef (R s)) (lastSpawnRef (R s)).
Proof.
  cbv zeta. change (spacing (run evs (mount stored))).
  assert (H0 : spacing (mount stored)).
  { unfold mount. cbv zeta.
    apply spacing_requestAnimationFrame, spacing_resetGame. }
  unfold run. revert H0. generalize (mount stored).
  induction evs as [|ev evs IH]; intros s H; cbn [fold_left]; [exact H|].
  apply IH, spacing_handle, H.
Qed.

(** ** Several callbacks in one frame, and the best score without the
       R and P keys *)

Lemma loop_lastTime b ts rnd s :
  pausedRef (R s) = false -> lastTimeRef (R (loop b ts rnd s)) = ts.
Proof.
  intro Hp. unfold loop. rewrite Hp. cbv zeta.
  destruct (draw_control b (deltaTime (lastTimeRef (R s)) ts) rnd
              (onR (set_lastTimeRef ts) s)) as (_ & Hl & _).
  destruct (negb (gameOverRef _)); unfold requestAnimationFrame; proj;
    exact Hl.
Qed.













(** X24.  When several frame callbacks run in the same frame, only the
    first can move the bird and the pipes: on every state that
    satisfies the invariants of reachable states, running the
    callbacks [b :: q] one after the other leaves the bird's position
    and velocity and the pipe sequence as the first callback left
    them. *)
Theorem later_callbacks_leave_the_scene (b ts rnd : Qc) (q : list Qc) (s : world) :
  Inv s ->
  scene (fold_left (fun s b => loop b ts rnd s) (b :: q) s)
  = scene (loop b ts rnd s).
Proof.
  intro HI. cbn [fold_left].
  destruct (pausedRef (R s)) eqn:Hp.
  - assert (Ht : loop b ts rnd s = s) by (unfold loop; rewrite Hp; reflexivity).
    rewrite Ht, loops_paused by exact Hp. reflexivity.
  - apply loops_zero; [apply Inv_loop; exact HI|].
    right. apply loop_lastTime. exact Hp.
Qed.

Lemma later_callbacks_leave_the_scene_witness :
  scene (fold_left (fun s b => loop b (Z2Qc 3000) 0 s) [0; 0; 0]
           (run resumed (mount None)))
  = scene (loop 0 (Z2Qc 3000) 0 (run resumed (mount None))).
Proof.
  apply (later_callbacks_leave_the_scene 0 (Z2Qc 3000) 0 [0; 0]
           (run resumed (mount None))).
  apply Inv_reachable.
Defined.
